(** * NovoGrad (novograd.js): a shallow embedding of the optimizer and its properties

    The development follows [src/novograd.js]: the class [NovoGrad] with its
    [constructor] and its [step] method, over the part of TensorFlow.js the
    class calls.

    Objects.  Parameter objects live in a store addressed by object
    identity, because [step] keys its state map by the parameter object and
    reassigns [param.data] in place; the same object may be listed twice.
    Tensors are immutable values.

    Numbers.  JavaScript numbers and tensor entries are modelled as exact
    reals extended with [Infinity], [-Infinity] and [NaN]: rounding, overflow
    and the sign of zero are not modelled.  TensorFlow.js keeps tensor
    entries, and every number passed to a tensor operation, as 32-bit
    floats: a squared norm can overflow to [Infinity] and a small [eps] can
    become zero there.  A statement below that gives a computed value as a
    real number gives the value of the formula, without rounding.

    Errors.  A call returns normally or throws; what a loop wrote before a
    callback threw stays written. *)

From Stdlib Require Import Reals Lra Lia.
From stdpp Require Import base option list gmap.

(** ** JavaScript numbers *)

Inductive jsnum : Type :=
  | Fin (r : R)
  | PInf
  | NInf
  | NaN.

Definition Rsign (r : R) : comparison :=
  if Rlt_dec 0 r then Gt else if Rlt_dec r 0 then Lt else Eq.

Definition jneg (x : jsnum) : jsnum :=
  match x with
  | Fin r => Fin (- r)
  | PInf => NInf
  | NInf => PInf
  | NaN => NaN
  end.

(** [x + y] *)
Definition jadd (x y : jsnum) : jsnum :=
  match x, y with
  | NaN, _ | _, NaN => NaN
  | Fin a, Fin b => Fin (a + b)
  | PInf, NInf | NInf, PInf => NaN
  | PInf, _ | _, PInf => PInf
  | NInf, _ | _, NInf => NInf
  end.

(** [x - y] *)
Definition jsub (x y : jsnum) : jsnum := jadd x (jneg y).

(** An infinity of the sign of [r], [NaN] when [r] is zero. *)
Definition signed_inf (r : R) : jsnum :=
  match Rsign r with
  | Gt => PInf
  | Lt => NInf
  | Eq => NaN
  end.

(** [x * y] *)
Definition jmul (x y : jsnum) : jsnum :=
  match x, y with
  | NaN, _ | _, NaN => NaN
  | Fin a, Fin b => Fin (a * b)
  | Fin a, PInf | PInf, Fin a => signed_inf a
  | Fin a, NInf | NInf, Fin a => signed_inf (- a)
  | PInf, PInf | NInf, NInf => PInf
  | PInf, NInf | NInf, PInf => NInf
  end.

(** [x / y]; a zero divisor counts as [+0]. *)
Definition jdiv (x y : jsnum) : jsnum :=
  match x, y with
  | NaN, _ | _, NaN => NaN
  | Fin a, Fin b => if Req_dec_T b 0 then signed_inf a else Fin (a / b)
  | Fin _, (PInf | NInf) => Fin 0
  | PInf, Fin b => if Rlt_dec b 0 then NInf else PInf
  | NInf, Fin b => if Rlt_dec b 0 then PInf else NInf
  | (PInf | NInf), (PInf | NInf) => NaN
  end.

(** [Math.sqrt(x)], which is also the entry-wise [tf.sqrt]. *)
Definition jsqrt (x : jsnum) : jsnum :=
  match x with
  | Fin r => if Rlt_dec r 0 then NaN else Fin (sqrt r)
  | PInf => PInf
  | NInf | NaN => NaN
  end.

(** [Math.pow(x, n)] for a non-negative integer exponent [n]. *)
Definition Math_pow (x : jsnum) (n : nat) : jsnum :=
  match n with
  | O => Fin 1
  | S _ =>
      match x with
      | Fin r => Fin (r ^ n)
      | PInf => PInf
      | NInf => if Nat.even n then PInf else NInf
      | NaN => NaN
      end
  end.

Definition is_NaN (x : jsnum) : Prop := x = NaN.

(** ** Completions: a call returns normally or throws *)

Inductive JsError : Type :=
  | TypeError   (** property access on [undefined] or [null] *)
  | TfjsError.  (** an [Error] thrown by a TensorFlow.js operation *)

Inductive Completion (A : Type) : Type :=
  | Normal (a : A)
  | Throw (e : JsError).
Arguments Normal {A} a.
Arguments Throw {A} e.

Definition cbind {A B : Type} (c : Completion A) (k : A → Completion B) : Completion B :=
  match c with
  | Normal a => k a
  | Throw e => Throw e
  end.

#[global] Instance Completion_bind : MBind Completion := fun A B k c => cbind c k.

(** ** The tensor operations [step] uses

    A tensor is its shape and its entries in row-major order.  TensorFlow.js
    tensors are immutable: every operation returns a new tensor. *)

Record Tensor : Type := mkTensor { shape : list nat; values : list jsnum }.

Definition tf_scalar (x : jsnum) : Tensor := mkTensor [] [x].

Definition tensor_map (f : jsnum → jsnum) (t : Tensor) : Tensor :=
  mkTensor (shape t) (map f (values t)).

(** [t.square()] *)
Definition square (t : Tensor) : Tensor := tensor_map (fun x => jmul x x) t.

(** [tf.sqrt(t)] *)
Definition tf_sqrt (t : Tensor) : Tensor := tensor_map jsqrt t.

Definition sum_squares (l : list jsnum) : jsnum :=
  foldr (fun x acc => jadd (jmul x x) acc) (Fin 0) l.

(** [tf.norm(t)]: the Euclidean norm of all entries, a rank-0 tensor. *)
Definition tf_norm (t : Tensor) : Tensor := tf_scalar (jsqrt (sum_squares (values t))).

(** A binary operation whose argument is a JavaScript number: the number
    becomes a rank-0 tensor and is broadcast over the receiver.  (The
    conversion of the number to a 32-bit float is not modelled.) *)
Definition add_n (t : Tensor) (c : jsnum) : Tensor := tensor_map (fun x => jadd x c) t.
Definition mul_n (t : Tensor) (c : jsnum) : Tensor := tensor_map (fun x => jmul x c) t.

(** Broadcasting of two shapes, dimensions aligned from the right; the
    shapes are given last dimension first. *)
Fixpoint broadcast_rev (a b : list nat) : option (list nat) :=
  match a, b with
  | [], _ => Some b
  | _, [] => Some a
  | x :: a', y :: b' =>
      match broadcast_rev a' b' with
      | None => None
      | Some s =>
          if decide (x = 1) then Some (y :: s)
          else if decide (y = 1) then Some (x :: s)
          else if decide (x = y) then Some (x :: s)
          else None
      end
  end.

Definition broadcast_shape (a b : list nat) : option (list nat) :=
  option_map (@rev nat) (broadcast_rev (rev a) (rev b)).

(** The flat index, in an operand of shape [a], of the entry that the
    result entry at flat index [i] reads; both shapes last dimension first,
    [s] the result's. *)
Fixpoint src_index (a s : list nat) (i : nat) : nat :=
  match a, s with
  | x :: a', d :: s' =>
      (if decide (x = 1) then 0 else i mod d) + x * src_index a' s' (i / d)
  | _, _ => 0
  end.

Definition size_of (s : list nat) : nat := foldr Nat.mul 1 s.

(** A binary operation between two tensors: entry-wise on the broadcast
    shape; incompatible shapes throw. *)
Definition broadcast_op (f : jsnum → jsnum → jsnum) (a b : Tensor) : Completion Tensor :=
  match broadcast_shape (shape a) (shape b) with
  | None => Throw TfjsError
  | Some s =>
      Normal (mkTensor s
        (map (fun i => f (nth (src_index (rev (shape a)) (rev s) i) (values a) NaN)
                         (nth (src_index (rev (shape b)) (rev s) i) (values b) NaN))
             (seq 0 (size_of s))))
  end.

Definition add (a b : Tensor) : Completion Tensor := broadcast_op jadd a b.
Definition sub (a b : Tensor) : Completion Tensor := broadcast_op jsub a b.
Definition div (a b : Tensor) : Completion Tensor := broadcast_op jdiv a b.

(** [Number(t)] for a tensor object [t].  Lines 22 and 46 multiply with
    the operator [*], [this.weightDecay * param.data], which converts both
    operands to numbers.  A tensor object defines no [valueOf], so its
    conversion goes through [toString], whose text starts with the word
    Tensor and is no numeric literal: the result is [NaN]. *)
Definition ToNumber_Tensor (t : Tensor) : jsnum := NaN.

Definition well_formed (t : Tensor) : Prop := length (values t) = size_of (shape t).
Definition is_scalar (t : Tensor) : Prop := shape t = [] ∧ length (values t) = 1.
Definition all_NaN (t : Tensor) : Prop := Forall is_NaN (values t).

(** The tensor of shape [s] whose entries are all [NaN]. *)
Definition NaN_tensor (s : list nat) : Tensor := mkTensor s (replicate (size_of s) NaN).

(** The entry of a rank-0 tensor. *)
Definition scalar_val (t : Tensor) : jsnum := nth 0 (values t) NaN.

(** The squared Euclidean norm of a list of reals. *)
Definition Rsum_squares (l : list R) : R := foldr (fun x acc => x * x + acc)%R 0%R l.

(** ** Parameters, optimizer state, the optimizer object *)

(** Object identity of a parameter object. *)
Abbreviation ref := nat (only parsing).

(** A parameter object [{ data, grad }]; [grad] may be unset. *)
Record Param : Type := mkParam { data : Tensor; grad : option Tensor }.

(** The per-parameter record [{ step, v, m, gradEMA }] kept in [this.states]. *)
Module State.
Record t : Type := mk { step : nat; v : Tensor; m : Tensor; gradEMA : option Tensor }.
End State.

(** The options object of the constructor; an absent property is [None]. *)
Module Options.
Record t : Type := mk {
  lr : option jsnum;
  betas : option (jsnum * jsnum);
  eps : option jsnum;
  weightDecay : option jsnum;
  gradAveraging : option bool }.
Definition empty : t := mk None None None None None.
End Options.

Record NovoGrad : Type := mkNovoGrad {
  lr : jsnum;
  beta1 : jsnum;
  beta2 : jsnum;
  eps : jsnum;
  weightDecay : jsnum;
  gradAveraging : bool;
  momentumInitialized : bool;
  params : list ref;
  states : gmap ref State.t }.

(** [new NovoGrad(params, options)] *)
Definition constructor (ps : list ref) (options : option Options.t) : Completion NovoGrad :=
  let o := default Options.empty options in
  let betas := default (Fin 0.95, Fin 0.98) (Options.betas o) in
  Normal {|
    lr := default (Fin 0.1) (Options.lr o);
    beta1 := betas.1;
    beta2 := betas.2;
    eps := default (Fin 1e-8) (Options.eps o);
    weightDecay := default (Fin 0) (Options.weightDecay o);
    gradAveraging := default false (Options.gradAveraging o);
    momentumInitialized := false;
    params := ps;
    states := ∅ |}.

(** The store of parameter objects together with the optimizer object. *)
Record World : Type := mkWorld { heap : gmap ref Param; this : NovoGrad }.

Definition set_data (r : ref) (d : Tensor) (w : World) : World :=
  mkWorld (alter (fun p => mkParam d (grad p)) r (heap w)) (this w).

Definition set_state (r : ref) (s : State.t) (w : World) : World :=
  let o := this w in
  mkWorld (heap w)
    (mkNovoGrad (lr o) (beta1 o) (beta2 o) (eps o) (weightDecay o) (gradAveraging o)
       (momentumInitialized o) (params o) (<[r := s]> (states o))).

Definition set_momentumInitialized (b : bool) (w : World) : World :=
  let o := this w in
  mkWorld (heap w)
    (mkNovoGrad (lr o) (beta1 o) (beta2 o) (eps o) (weightDecay o) (gradAveraging o)
       b (params o) (states o)).

(** [l.forEach(f)]: a callback that throws ends the loop, and what earlier
    callbacks wrote stays written. *)
Fixpoint forEach (f : ref → World → World * Completion unit) (l : list ref) (w : World)
  : World * Completion unit :=
  match l with
  | [] => (w, Normal tt)
  | r :: l' =>
      match f r w with
      | (w', Normal _) => forEach f l' w'
      | (w', Throw e) => (w', Throw e)
      end
  end.

(** ** [step] *)

(** Lines 21-24: the record the one-time pass stores for a parameter. *)
Definition init_state (o : NovoGrad) (param : Param) : Completion State.t :=
  match grad param with
  | None => Throw TfjsError
  | Some g =>
      let v := square (tf_norm g) in
      q ← div g (add_n (tf_sqrt v) (eps o));
      let m := add_n q (jmul (weightDecay o) (ToNumber_Tensor (data param))) in
      Normal (State.mk 0 v m None)
  end.

Definition init_param (r : ref) (w : World) : World * Completion unit :=
  match heap w !! r with
  | None => (w, Throw TypeError)
  | Some param =>
      match init_state (this w) param with
      | Throw e => (w, Throw e)
      | Normal s => (set_state r s w, Normal tt)
      end
  end.

(** Line 36 *)
Definition next_gradEMA (o : NovoGrad) (gradEMA : option Tensor) (g2 : Tensor)
  : Completion Tensor :=
  match gradEMA with
  | Some e => add (mul_n e (beta2 o)) (mul_n g2 (jsub (Fin 1) (beta2 o)))
  | None => Normal g2
  end.

(** Lines 38-42 *)
Definition normalized_grad (o : NovoGrad) (g gradEMA : Tensor) : Completion Tensor :=
  q ← div g (add_n (tf_sqrt gradEMA) (eps o));
  Normal (if gradAveraging o then mul_n q (jsub (Fin 1) (beta1 o)) else q).

(** Lines 48-51 *)
Definition biasCorrection1 (o : NovoGrad) (step : nat) : jsnum :=
  jsub (Fin 1) (Math_pow (beta1 o) (step + 1)).
Definition biasCorrection2 (o : NovoGrad) (step : nat) : jsnum :=
  jsub (Fin 1) (Math_pow (beta2 o) (step + 1)).
Definition stepSize (o : NovoGrad) (step : nat) : jsnum :=
  jdiv (jmul (lr o) (jsqrt (biasCorrection2 o step))) (biasCorrection1 o step).

(** Lines 31-53 and the values lines 55-58 store: the new [data] and the
    new state record of one parameter. *)
Definition update (o : NovoGrad) (param : Param) (state : State.t)
  : Completion (Tensor * State.t) :=
  match grad param with
  | None => Throw TfjsError
  | Some g =>
      let g2 := square (tf_norm g) in
      gradEMA ← next_gradEMA o (State.gradEMA state) g2;
      ng ← normalized_grad o g gradEMA;
      let g2' := square (tf_norm ng) in
      v ← add (mul_n (State.v state) (beta2 o)) (mul_n g2' (jsub (Fin 1) (beta2 o)));
      q ← div ng (add_n (tf_sqrt v) (eps o));
      m ← add (mul_n (State.m state) (beta1 o))
              (add_n q (jmul (weightDecay o) (ToNumber_Tensor (data param))));
      d ← sub (data param) (mul_n m (stepSize o (State.step state)));
      Normal (d, State.mk (State.step state + 1) v m (Some gradEMA))
  end.

Definition update_param (r : ref) (w : World) : World * Completion unit :=
  match states (this w) !! r with
  | None => (w, Throw TypeError)
  | Some state =>
      match heap w !! r with
      | None => (w, Throw TypeError)
      | Some param =>
          match update (this w) param state with
          | Throw e => (w, Throw e)
          | Normal (d, s) => (set_state r s (set_data r d w), Normal tt)
          end
      end
  end.

(** Lines 19-27 *)
Definition init_pass (w : World) : World * Completion unit :=
  if momentumInitialized (this w) then (w, Normal tt)
  else
    match forEach init_param (params (this w)) w with
    | (w', Normal _) => (set_momentumInitialized true w', Normal tt)
    | (w', Throw e) => (w', Throw e)
    end.

(** Lines 29-59 *)
Definition update_pass (w : World) : World * Completion unit :=
  forEach update_param (params (this w)) w.

Definition step (w : World) : World * Completion unit :=
  match init_pass w with
  | (w', Normal _) => update_pass w'
  | (w', Throw e) => (w', Throw e)
  end.

(** What happens between two calls: the caller recomputes gradients or
    otherwise rewrites parameter objects, or calls [step]. *)
Inductive action : Type :=
  | Caller_writes (h : gmap ref Param)
  | Call_step.

Definition perform (a : action) (w : World) : World :=
  match a with
  | Caller_writes h => mkWorld h (this w)
  | Call_step => (step w).1
  end.

Definition run (acts : list action) (w : World) : World :=
  foldl (fun w a => perform a w) w acts.

(** ** Predicates used in the statements *)

(** The options fixed at construction and the parameter list. *)
Definition same_config (o o' : NovoGrad) : Prop :=
  lr o' = lr o ∧ beta1 o' = beta1 o ∧ beta2 o' = beta2 o ∧ eps o' = eps o ∧
  weightDecay o' = weightDecay o ∧ gradAveraging o' = gradAveraging o ∧
  params o' = params o.

(** The invariant of the state map: [v] is a rank-0 tensor; [gradEMA] is
    unset exactly in a record that no update has touched yet, and a rank-0
    tensor otherwise; updates only happen once the flag is set. *)
Definition state_inv (w : World) : Prop :=
  ∀ r s, states (this w) !! r = Some s →
    is_scalar (State.v s) ∧
    match State.gradEMA s with
    | None => State.step s = 0
    | Some e =>
        is_scalar e ∧ 1 ≤ State.step s ∧ momentumInitialized (this w) = true
    end.

(** Between two state maps: the same keys, and every record was at most
    updated in place (its counter did not go back, a set [gradEMA] stayed
    set). *)
Definition kept (m m' : gmap ref State.t) : Prop :=
  ∀ r, match m !! r, m' !! r with
       | None, None => True
       | Some s, Some s' =>
           State.step s ≤ State.step s' ∧
           (is_Some (State.gradEMA s) → is_Some (State.gradEMA s'))
       | _, _ => False
       end.

(** The precondition of [step]: every managed parameter has its gradient
    set, of the shape of its data; once the optimizer is initialised, every
    managed parameter has a record whose [m] has that shape too. *)
Definition ready (w : World) : Prop :=
  ∀ r, r ∈ params (this w) →
    ∃ p g, heap w !! r = Some p ∧ grad p = Some g ∧ shape g = shape (data p) ∧
      if momentumInitialized (this w)
      then ∃ s, states (this w) !! r = Some s ∧ shape (State.m s) = shape g
      else True.

(** ** The step size over the reals *)

(** Line 51 over the reals: [lr * sqrt(1 - beta2^(step+1)) / (1 - beta1^(step+1))]. *)
Definition stepSize_R (l b1 b2 : R) (step : nat) : R :=
  (l * sqrt (1 - b2 ^ (step + 1)) / (1 - b1 ^ (step + 1)))%R.

(** ** Concrete inputs

    The usage example of the repository's documentation: parameters
    [{ data: [1, 2, 3], grad: [0.1, 0.2, 0.3] }] and
    [{ data: [4, 5, 6], grad: [0.4, 0.5, 0.6] }]. *)

Definition vector (l : list R) : Tensor := mkTensor [length l] (map Fin l).

Definition param1 : Param :=
  mkParam (vector [1; 2; 3]%R) (Some (vector [0.1; 0.2; 0.3]%R)).

Definition param2 : Param :=
  mkParam (vector [4; 5; 6]%R) (Some (vector [0.4; 0.5; 0.6]%R)).

(** The optimizer [new NovoGrad(ps)] or [new NovoGrad(ps, {})]. *)
Definition default_optimizer (ps : list ref) : NovoGrad :=
  mkNovoGrad (Fin 0.1) (Fin 0.95) (Fin 0.98) (Fin 1e-8) (Fin 0) false false ps ∅.

(** A parameter whose gradient has not been set, and the store in which
    the caller has then set it. *)
Definition param_no_grad : Param := mkParam (vector [4; 5; 6]%R) None.

Definition heap_missing_grad : gmap ref Param := {[0 := param1; 1 := param_no_grad]}.


(** A parameter whose gradient has three entries and whose data has two,
    and one whose gradient has a single entry. *)
Definition param_shape_2_3 : Param :=
  mkParam (vector [4; 5]%R) (Some (vector [0.4; 0.5; 0.6]%R)).

Definition param_shape_3_1 : Param :=
  mkParam (vector [1; 2; 3]%R) (Some (vector [0.5]%R)).

(** Options with [betas: [1.5, 0.98]]. *)
Definition options_beta1_too_large : Options.t :=
  Options.mk None (Some (Fin 1.5, Fin 0.98)) None None None.

(** The optimizer with [lr = 1], [betas = [1/2, 8/9]]. *)
Definition optimizer_half_eight_ninths : NovoGrad :=
  mkNovoGrad (Fin 1) (Fin (1 / 2)) (Fin (8 / 9)) (Fin 1e-8) (Fin 0) false false [] ∅.

(** A parameter whose gradient is the zero tensor. *)
Definition param_zero_grad : Param :=
  mkParam (vector [1; 2; 3]%R) (Some (vector [0; 0; 0]%R)).

(** ** More predicates and inputs *)

(** [n] consecutive [step] calls, as in the loop of the usage example. *)
Definition calls (n : nat) : list action := replicate n Call_step.

(** The optimizer [o] with the parameter list [l] in place of its own. *)
Definition with_params (l : list ref) (o : NovoGrad) : NovoGrad :=
  mkNovoGrad (lr o) (beta1 o) (beta2 o) (eps o) (weightDecay o) (gradAveraging o)
    (momentumInitialized o) l (states o).

(** The record the one-time pass stores for a gradient [g] (lines 21-24,
    with [m] as [init_state_eq] gives it). *)
Definition initial_record (g : Tensor) : State.t :=
  State.mk 0 (square (tf_norm g)) (NaN_tensor (shape g)) None.

(** The record line 31 destructures for [r]: on a call with the flag set,
    the stored one; otherwise the one the one-time pass has just stored. *)
Definition prior_record (w : World) (r : ref) (g : Tensor) : option State.t :=
  if momentumInitialized (this w) then states (this w) !! r
  else Some (initial_record g).

(** The optimizer built with the default options on an empty array, after
    one [step] call and after the caller has pushed the parameter [0] onto
    that array: line 14 keeps the caller's array, it does not copy it. *)
Definition optimizer_after_push : NovoGrad :=
  mkNovoGrad (Fin 0.1) (Fin 0.95) (Fin 0.98) (Fin 1e-8) (Fin 0) false true [0] ∅.



(** An initialised optimizer over two parameters, the first updated once
    and the second not yet. *)
Definition optimizer_after_throw : NovoGrad :=
  mkNovoGrad (Fin 0.1) (Fin 0.95) (Fin 0.98) (Fin 1e-8) (Fin 0) false true [0; 1]
    {[0 := State.mk 1 (tf_scalar (Fin 1)) (NaN_tensor [3]) (Some (tf_scalar (Fin 1)));
      1 := State.mk 0 (tf_scalar (Fin 1)) (NaN_tensor [3]) None]}.

(** A non-empty tensor whose entries are all zero. *)
Definition zero_tensor (t : Tensor) : Prop :=
  size_of (shape t) ≠ 0 ∧ values t = replicate (size_of (shape t)) (Fin 0).

(** The record's second moment is [NaN]. *)
Definition v_NaN (w : World) (r : ref) : Prop :=
  ∃ s, states (this w) !! r = Some s ∧ State.v s = tf_scalar NaN.

(** The optimizer [new NovoGrad(ps, { eps: 0 })]. *)
Definition optimizer_zero_eps (ps : list ref) : NovoGrad :=
  mkNovoGrad (Fin 0.1) (Fin 0.95) (Fin 0.98) (Fin 0) (Fin 0) false false ps ∅.

(** An initialised optimizer whose record has [v = NaN]. *)
Definition optimizer_v_NaN : NovoGrad :=
  mkNovoGrad (Fin 0.1) (Fin 0.95) (Fin 0.98) (Fin 0) (Fin 0) false true [0]
    {[0 := State.mk 1 (tf_scalar NaN) (NaN_tensor [3]) (Some (tf_scalar (Fin 0)))]}.

(** A parameter whose data has one entry and whose gradient has three. *)
Definition param_shape_1_3 : Param :=
  mkParam (vector [1]%R) (Some (vector [0.4; 0.5; 0.6]%R)).

(** ** Records updated in place *)



(** The entry of [tf.norm(t).square()] for a tensor of entries [l]. *)
Definition squared_norm (l : list jsnum) : jsnum :=
  let n := jsqrt (sum_squares l) in jmul n n.

(** One entry of the normalized gradient (lines 38-42) for the entry [x] of
    the gradient and the moving average [gradEMA]. *)
Definition normalized_entry (o : NovoGrad) (gradEMA x : jsnum) : jsnum :=
  let q := jdiv x (jadd (jsqrt gradEMA) (eps o)) in
  if gradAveraging o then jmul q (jsub (Fin 1) (beta1 o)) else q.
(** * Properties *)

Lemma bind_Normal {A B} (c : Completion A) (k : A → Completion B) b :
  c ≫= k = Normal b → ∃ a, c = Normal a ∧ k a = Normal b.
Proof. destruct c as [a|e]; [eauto | done]. Qed.

Ltac inv_bind H :=
  repeat match type of H with
  | _ ≫= _ = Normal _ =>
      let a := fresh "t" in let Ha := fresh "E" in
      apply bind_Normal in H as (a & Ha & H)
  end.

(** ** Arithmetic of JavaScript numbers *)

Lemma jadd_NaN_r x : jadd x NaN = NaN.
Proof. by destruct x. Qed.

Lemma jmul_NaN_r x : jmul x NaN = NaN.
Proof. by destruct x. Qed.

Lemma jsub_NaN_r x : jsub x NaN = NaN.
Proof. by destruct x. Qed.

Lemma jdiv_Fin a b : b ≠ 0%R → jdiv (Fin a) (Fin b) = Fin (a / b).
Proof. intros Hb. simpl. by destruct (Req_dec_T b 0). Qed.

Lemma jsqrt_Fin r : (0 <= r)%R → jsqrt (Fin r) = Fin (sqrt r).
Proof. intros Hr. simpl. destruct (Rlt_dec r 0); [lra | done]. Qed.

Lemma jsub_Fin a b : jsub (Fin a) (Fin b) = Fin (a - b).
Proof. done. Qed.

Lemma Math_pow_Fin r n : Math_pow (Fin r) n = Fin (r ^ n).
Proof. by destruct n. Qed.

(** ** Tensor operations *)

Lemma broadcast_rev_nil_r a : broadcast_rev a [] = Some a.
Proof. by destruct a. Qed.

Lemma broadcast_shape_nil_r s : broadcast_shape s [] = Some s.
Proof.
  unfold broadcast_shape. simpl. rewrite broadcast_rev_nil_r. simpl.
  by rewrite rev_involutive.
Qed.

Lemma broadcast_op_scalars f a b :
  is_scalar a → is_scalar b → ∃ t, broadcast_op f a b = Normal t ∧ is_scalar t.
Proof.
  intros [Ha _] [Hb _]. unfold broadcast_op. rewrite Ha, Hb. simpl.
  eexists. split; [done|]. by split.
Qed.

Lemma is_scalar_tensor_map f t : is_scalar t → is_scalar (tensor_map f t).
Proof. intros [Hs Hl]. split; [done|]. simpl. by rewrite length_map. Qed.

Lemma is_scalar_square_norm t : is_scalar (square (tf_norm t)).
Proof. by split. Qed.

Lemma nth_all_NaN (l : list jsnum) i : Forall is_NaN l → nth i l NaN = NaN.
Proof.
  intros H. revert i. induction H as [|x l Hx _ IH]; intros [|i]; simpl; auto.
Qed.

Lemma Forall_map_const {A} (P : jsnum → Prop) (g : A → jsnum) (l : list A) :
  (∀ i, P (g i)) → Forall P (map g l).
Proof. intros H. induction l; simpl; constructor; auto. Qed.

(** Whatever is combined with an all-[NaN] tensor is all [NaN]. *)
Lemma broadcast_op_NaN_r f a b t :
  (∀ x, f x NaN = NaN) → all_NaN b → broadcast_op f a b = Normal t → all_NaN t.
Proof.
  intros Hf Hb. unfold broadcast_op.
  destruct (broadcast_shape (shape a) (shape b)) as [s|]; [|done].
  intros [= <-]. unfold all_NaN. simpl.
  apply Forall_map_const. intros i. rewrite (nth_all_NaN (values b)); [|done].
  apply Hf.
Qed.

Lemma all_NaN_add_n_NaN t : all_NaN (add_n t NaN).
Proof.
  unfold all_NaN. simpl. apply Forall_map_const. intros x. apply jadd_NaN_r.
Qed.

Lemma all_NaN_mul_n t c : all_NaN t → all_NaN (mul_n t c).
Proof.
  unfold all_NaN. simpl. intros H. induction H as [|x l Hx _ IH]; simpl; constructor; auto.
  unfold is_NaN in *. by subst.
Qed.

Lemma size_of_app s1 s2 : size_of (s1 ++ s2) = size_of s1 * size_of s2.
Proof. induction s1 as [|d s1 IH]; simpl; [lia|]. rewrite IH. lia. Qed.

Lemma size_of_rev s : size_of (rev s) = size_of s.
Proof.
  induction s as [|d s IH]; [done|]. simpl. rewrite size_of_app, IH. simpl. lia.
Qed.

(** An operand of the result's own shape is read entry by entry. *)
Lemma src_index_same s i : i < size_of s → src_index s s i = i.
Proof.
  revert i. induction s as [|d s IH]; intros i Hi; simpl in *; [lia|].
  destruct (decide (d = 0)) as [->|Hd]; [lia|].
  assert (i / d < size_of s) as Hq by (apply Nat.Div0.div_lt_upper_bound; lia).
  rewrite (IH _ Hq). pose proof (Nat.div_mod_eq i d) as Hdm.
  case_decide as H1; [|lia].
  subst d. rewrite Nat.div_1_r. lia.
Qed.

Lemma map_nth_seq {A B} (f : A → B) (l : list A) (d : A) :
  map (fun i => f (nth i l d)) (seq 0 (length l)) = map f l.
Proof.
  induction l as [|x l IH]; [done|].
  simpl. f_equal. rewrite <- seq_shift, map_map. exact IH.
Qed.

(** Dividing (or any operation) by a rank-0 tensor acts entry by entry on a
    well-formed receiver. *)
Lemma broadcast_op_scalar_values f a c :
  well_formed a → shape c = [] →
  broadcast_op f a c = Normal (tensor_map (fun x => f x (scalar_val c)) a).
Proof.
  intros Ha Hc. unfold broadcast_op. rewrite Hc, broadcast_shape_nil_r.
  unfold tensor_map. do 2 f_equal.
  rewrite <- (map_nth_seq (fun x => f x (scalar_val c)) (values a) NaN), Ha.
  apply map_ext_in. intros i Hi. apply in_seq in Hi.
  rewrite src_index_same by (rewrite size_of_rev; lia).
  done.
Qed.

(** ** Loops and what one call can change *)

Lemma forEach_inv (P : World → Prop) f l w :
  (∀ r w', r ∈ l → P w' → P (f r w').1) → P w → P (forEach f l w).1.
Proof.
  revert w. induction l as [|r l IH]; intros w Hf Hw; simpl; [done|].
  assert (P (f r w).1) as H1 by (apply Hf; [left | done]).
  destruct (f r w) as [w' [[]|e]]; simpl in *; [|done].
  apply IH; [|done]. intros r' w'' Hr'. apply Hf. by right.
Qed.


Lemma same_config_refl o : same_config o o.
Proof. by repeat split. Qed.

Lemma init_param_config r w : same_config (this w) (this (init_param r w).1).
Proof.
  unfold init_param. destruct (heap w !! r) as [p|]; [|apply same_config_refl].
  by destruct (init_state (this w) p).
Qed.

Lemma update_param_config r w : same_config (this w) (this (update_param r w).1).
Proof.
  unfold update_param. destruct (states (this w) !! r) as [s|]; [|apply same_config_refl].
  destruct (heap w !! r) as [p|]; [|apply same_config_refl].
  by destruct (update (this w) p s) as [[d s']|].
Qed.

Lemma same_config_trans o1 o2 o3 :
  same_config o1 o2 → same_config o2 o3 → same_config o1 o3.
Proof. unfold same_config. intros H1 H2. destruct_and!. repeat split; congruence. Qed.

Lemma init_param_flag r w :
  momentumInitialized (this (init_param r w).1) = momentumInitialized (this w).
Proof.
  unfold init_param. destruct (heap w !! r) as [p|]; [|done].
  by destruct (init_state (this w) p).
Qed.

Lemma update_param_flag r w :
  momentumInitialized (this (update_param r w).1) = momentumInitialized (this w).
Proof.
  unfold update_param. destruct (states (this w) !! r) as [s|]; [|done].
  destruct (heap w !! r) as [p|]; [|done].
  by destruct (update (this w) p s) as [[d s']|].
Qed.

(** A property kept by every callback and by setting the flag is kept by
    [step], whether the call returns or throws.  The one-time pass runs
    with the flag unset, the update pass with the flag set. *)
Lemma step_inv (P : World → Prop) w :
  (∀ r w', r ∈ params (this w) → same_config (this w) (this w') →
     momentumInitialized (this w') = false → P w' → P (init_param r w').1) →
  (∀ w', same_config (this w) (this w') → P w' → P (set_momentumInitialized true w')) →
  (∀ r w', r ∈ params (this w) → same_config (this w) (this w') →
     momentumInitialized (this w') = true → P w' → P (update_param r w').1) →
  P w → P (step w).1.
Proof.
  intros Hi Hf Hu Hw.
  set (Q := fun b w' =>
    same_config (this w) (this w') ∧ momentumInitialized (this w') = b ∧ P w').
  assert (match (init_pass w).2 with
          | Normal _ => Q true (init_pass w).1
          | Throw _ => P (init_pass w).1
          end) as H1.
  { unfold init_pass. destruct (momentumInitialized (this w)) eqn:Hb; simpl.
    { split; [apply same_config_refl | done]. }
    assert (Q false (forEach init_param (params (this w)) w).1) as HQ.
    { apply forEach_inv; [|split; [apply same_config_refl | done]].
      intros r w' Hr (Hc & Hb' & Hp). split_and!.
      - eapply same_config_trans; [done | apply init_param_config].
      - by rewrite init_param_flag.
      - by apply Hi. }
    destruct (forEach init_param (params (this w)) w) as [w' [[]|e]]; simpl in *.
    - destruct HQ as (Hc & _ & Hp). split_and!; [done | done | by apply Hf].
    - apply HQ. }
  unfold step. destruct (init_pass w) as [w1 [[]|e]]; simpl in *; [|done].
  unfold update_pass. destruct H1 as (Hc & Hb & Hp).
  assert (params (this w1) = params (this w)) as -> by apply Hc.
  enough (Q true (forEach update_param (params (this w)) w1).1) as (_ & _ & ?) by done.
  apply forEach_inv; [|done]. intros r w' Hr (Hc' & Hb' & Hp'). split_and!.
  - eapply same_config_trans; [done | apply update_param_config].
  - by rewrite update_param_flag.
  - by apply Hu.
Qed.

Lemma init_param_heap r w : heap (init_param r w).1 = heap w.
Proof.
  unfold init_param. destruct (heap w !! r) as [p|]; [|done].
  by destruct (init_state (this w) p).
Qed.

(** What one update callback does to the store: only the object [r], and
    of it only [data]. *)
Lemma update_param_heap r w r' :
  grad <$> heap (update_param r w).1 !! r' = grad <$> heap w !! r' ∧
  (r' ≠ r → heap (update_param r w).1 !! r' = heap w !! r').
Proof.
  unfold update_param. destruct (states (this w) !! r) as [s|]; [|done].
  destruct (heap w !! r) as [p|] eqn:Hp; [|done].
  destruct (update (this w) p s) as [[d s']|]; [|done].
  simpl. rewrite lookup_alter. case_decide as Hr; [|done]. subst r'.
  split; [|done]. rewrite Hp. done.
Qed.

(** ** The per-parameter state records *)


Lemma next_gradEMA_scalar o e g t :
  (∀ x, e = Some x → is_scalar x) →
  next_gradEMA o e (square (tf_norm g)) = Normal t → is_scalar t.
Proof.
  intros He. destruct e as [x|]; unfold next_gradEMA.
  - destruct (broadcast_op_scalars jadd (mul_n x (beta2 o))
      (mul_n (square (tf_norm g)) (jsub (Fin 1) (beta2 o)))) as (t' & Ht & Hs).
    + apply is_scalar_tensor_map. by apply He.
    + apply is_scalar_tensor_map, is_scalar_square_norm.
    + unfold add. rewrite Ht. by intros [= <-].
  - intros [= <-]. apply is_scalar_square_norm.
Qed.

(** What a completed update stores (lines 55-58). *)
Lemma update_state o p s d s' :
  update o p s = Normal (d, s') →
  is_scalar (State.v s) → (∀ x, State.gradEMA s = Some x → is_scalar x) →
  State.step s' = State.step s + 1 ∧ is_scalar (State.v s') ∧
  ∃ e, State.gradEMA s' = Some e ∧ is_scalar e.
Proof.
  unfold update. destruct (grad p) as [g|]; [|done].
  intros H Hv He. inv_bind H. injection H as <- <-. simpl.
  split; [done|]. split.
  - destruct (broadcast_op_scalars jadd (mul_n (State.v s) (beta2 o))
      (mul_n (square (tf_norm t0)) (jsub (Fin 1) (beta2 o)))) as (t' & Ht & Hs).
    + by apply is_scalar_tensor_map.
    + apply is_scalar_tensor_map, is_scalar_square_norm.
    + unfold add in E1. rewrite Ht in E1. by injection E1 as <-.
  - eexists. split; [done|]. by eapply next_gradEMA_scalar.
Qed.

Lemma init_state_Normal o p s :
  init_state o p = Normal s →
  State.step s = 0 ∧ State.gradEMA s = None ∧
  ∃ g, grad p = Some g ∧ State.v s = square (tf_norm g).
Proof.
  unfold init_state. destruct (grad p) as [g|]; [|done].
  intros H. inv_bind H. injection H as <-. simpl. eauto.
Qed.

Lemma init_param_states r w :
  states (this (init_param r w).1) = states (this w) ∨
  ∃ p s, heap w !! r = Some p ∧ init_state (this w) p = Normal s ∧
         states (this (init_param r w).1) = <[r:=s]> (states (this w)).
Proof.
  unfold init_param. destruct (heap w !! r) as [p|]; [|by left].
  destruct (init_state (this w) p) as [s|] eqn:Hs; [|by left].
  right. by exists p, s.
Qed.

Lemma update_param_states r w :
  states (this (update_param r w).1) = states (this w) ∨
  ∃ p s d s', states (this w) !! r = Some s ∧ heap w !! r = Some p ∧
              update (this w) p s = Normal (d, s') ∧
              states (this (update_param r w).1) = <[r:=s']> (states (this w)).
Proof.
  unfold update_param. destruct (states (this w) !! r) as [s|]; [|by left].
  destruct (heap w !! r) as [p|]; [|by left].
  destruct (update (this w) p s) as [[d s']|] eqn:Hu; [|by left].
  right. by exists p, s, d, s'.
Qed.


Lemma state_inv_gradEMA w r s x :
  state_inv w → states (this w) !! r = Some s → State.gradEMA s = Some x → is_scalar x.
Proof. intros Hw Hs Hx. destruct (Hw r s Hs) as [_ H]. rewrite Hx in H. apply H. Qed.

Lemma init_param_state_inv r w : state_inv w → state_inv (init_param r w).1.
Proof.
  intros Hw r' s'. rewrite init_param_flag.
  destruct (init_param_states r w) as [-> | (p & s & _ & Hs & ->)]; [apply Hw|].
  rewrite lookup_insert. case_decide; [|apply Hw].
  intros [= <-]. apply init_state_Normal in Hs as (Hst & He & g & _ & Hv).
  rewrite He, Hv. split; [apply is_scalar_square_norm | done].
Qed.

Lemma update_param_state_inv r w :
  momentumInitialized (this w) = true → state_inv w → state_inv (update_param r w).1.
Proof.
  intros Hb Hw r' s'. rewrite update_param_flag.
  destruct (update_param_states r w) as [-> | (p & s & d & s1 & Hs & _ & Hu & ->)];
    [apply Hw|].
  rewrite lookup_insert. case_decide; [|apply Hw].
  intros [= <-]. destruct (Hw r s Hs) as [Hv _].
  apply update_state in Hu as (Hst & Hv' & e & He & Hes);
    [|done|by intros x; apply (state_inv_gradEMA w r)].
  split; [done|]. rewrite He. split_and!; [done | lia | done].
Qed.

Lemma set_flag_state_inv w : state_inv w → state_inv (set_momentumInitialized true w).
Proof.
  intros Hw r s Hs. destruct (Hw r s Hs) as [Hv He]. split; [done|].
  destruct (State.gradEMA s); [|done]. simpl. by destruct He as (? & ? & _).
Qed.

Lemma step_state_inv w : state_inv w → state_inv (step w).1.
Proof.
  apply step_inv.
  - intros r w' _ _ _. apply init_param_state_inv.
  - intros w' _. apply set_flag_state_inv.
  - intros r w' _ _. apply update_param_state_inv.
Qed.



Lemma constructor_fresh ps options o :
  constructor ps options = Normal o →
  params o = ps ∧ states o = ∅ ∧ momentumInitialized o = false.
Proof. by intros [= <-]. Qed.

Lemma fresh_state_inv h o : states o = ∅ → state_inv (mkWorld h o).
Proof. intros Ho r s. simpl. by rewrite Ho, lookup_empty. Qed.

Lemma kept_refl m : kept m m.
Proof. intros r. by destruct (m !! r). Qed.

Lemma update_step o p s d s' :
  update o p s = Normal (d, s') →
  State.step s' = State.step s + 1 ∧ is_Some (State.gradEMA s').
Proof.
  unfold update. destruct (grad p) as [g|]; [|done].
  intros H. inv_bind H. injection H as <- <-. simpl. eauto.
Qed.

Lemma kept_update m m' r s s' :
  kept m m' → m' !! r = Some s →
  State.step s' = State.step s + 1 → is_Some (State.gradEMA s') →
  kept m (<[r:=s']> m').
Proof.
  intros Hk Hs Hst He r'. specialize (Hk r'). rewrite lookup_insert.
  case_decide as Hr; [subst r'|done].
  rewrite Hs in Hk. destruct (m !! r) as [s0|]; [|done].
  split; [lia | done].
Qed.

(** Once the flag is set, a call neither creates nor removes nor replaces
    a record. *)
Lemma step_initialized w :
  momentumInitialized (this w) = true →
  momentumInitialized (this (step w).1) = true ∧
  kept (states (this w)) (states (this (step w).1)).
Proof.
  intros Hb.
  apply (step_inv (fun w' => momentumInitialized (this w') = true ∧
                             kept (states (this w)) (states (this w')))).
  - intros r w' _ _ Hf [Ht _]. congruence.
  - intros w' _ [_ Hk]. done.
  - intros r w' _ _ _ [Ht Hk]. rewrite update_param_flag. split; [done|].
    destruct (update_param_states r w') as [-> | (p & s & d & s' & Hs & _ & Hu & ->)];
      [done|].
    apply update_step in Hu as [Hst He]. by eapply kept_update.
  - split; [done | apply kept_refl].
Qed.

Lemma forEach_update_flag l w :
  momentumInitialized (this (forEach update_param l w).1) = momentumInitialized (this w).
Proof.
  apply (forEach_inv (fun w' => momentumInitialized (this w') = momentumInitialized (this w)));
    [|done].
  intros r w' _ <-. apply update_param_flag.
Qed.

Lemma init_pass_Normal w w1 u :
  init_pass w = (w1, Normal u) → momentumInitialized (this w1) = true.
Proof.
  unfold init_pass. destruct (momentumInitialized (this w)) eqn:Hb.
  - by intros [= <- _].
  - destruct (forEach init_param (params (this w)) w) as [w' [[]|e]]; [|done].
    by intros [= <- _].
Qed.

(** A call that returns leaves the flag set. *)
Lemma step_Normal_flag w :
  (step w).2 = Normal tt → momentumInitialized (this (step w).1) = true.
Proof.
  unfold step. destruct (init_pass w) as [w1 [[]|e]] eqn:H1; [|done].
  intros _. unfold update_pass. rewrite forEach_update_flag.
  by eapply init_pass_Normal.
Qed.

Lemma update_param_Normal_state r w w' u :
  update_param r w = (w', Normal u) → is_Some (states (this w') !! r).
Proof.
  unfold update_param. destruct (states (this w) !! r) as [s|]; [|done].
  destruct (heap w !! r) as [p|]; [|done].
  destruct (update (this w) p s) as [[d s']|]; [|done].
  intros [= <-]. simpl. rewrite lookup_insert_eq. eauto.
Qed.

Lemma update_param_keeps_key r r' w :
  is_Some (states (this w) !! r') → is_Some (states (this (update_param r w).1) !! r').
Proof.
  intros H.
  destruct (update_param_states r w) as [-> | (p & s & d & s' & _ & _ & _ & ->)]; [done|].
  rewrite lookup_insert. case_decide; eauto.
Qed.

Lemma forEach_update_Normal l w w' u :
  forEach update_param l w = (w', Normal u) →
  ∀ r, r ∈ l → is_Some (states (this w') !! r).
Proof.
  revert w. induction l as [|r0 l IH]; intros w H r Hr; [by apply elem_of_nil in Hr|].
  simpl in H. destruct (update_param r0 w) as [w1 [[]|e]] eqn:H0; [|done].
  apply elem_of_cons in Hr as [-> | Hr]; [|by eapply IH].
  apply update_param_Normal_state in H0.
  replace w' with (forEach update_param l w1).1 by (by rewrite H).
  apply (forEach_inv (fun w2 => is_Some (states (this w2) !! r0))); [|done].
  intros r w2 _. apply update_param_keeps_key.
Qed.

(** A call that returns leaves a record for every managed parameter. *)
Lemma step_Normal_states w r :
  (step w).2 = Normal tt → r ∈ params (this w) →
  is_Some (states (this (step w).1) !! r).
Proof.
  unfold step. destruct (init_pass w) as [w1 [[]|e]] eqn:H1; [|done].
  unfold update_pass. intros H2 Hr.
  destruct (forEach update_param (params (this w1)) w1) as [w2 c] eqn:H3.
  simpl in *. subst c. eapply forEach_update_Normal; [done|].
  assert (same_config (this w) (this w1)) as Hc.
  { unfold init_pass in H1. destruct (momentumInitialized (this w)).
    - injection H1 as <-. apply same_config_refl.
    - pose proof (forEach_inv (fun w' => same_config (this w) (this w'))
        init_param (params (this w)) w) as Hi.
      destruct (forEach init_param (params (this w)) w) as [w' [[]|e]]; [|done].
      injection H1 as <-. simpl in *. apply Hi; [|apply same_config_refl].
      intros r' w'' _ Hc. eapply same_config_trans; [done | apply init_param_config]. }
  destruct Hc as (_ & _ & _ & _ & _ & _ & ->). done.
Qed.


(** ** The store: [step] writes [data] of managed parameters only *)

(** C8.  For every store, every optimizer and every parameter object, a
    [step] call (returning or throwing) leaves the object's [grad] as it
    was; an object that is not in the parameter list is left as it was
    altogether, so the only field [step] writes is [data] of a managed
    parameter (line 53). *)
Theorem step_never_writes_grad (w : World) (r : ref) :
  grad <$> heap (step w).1 !! r = grad <$> heap w !! r ∧
  (r ∉ params (this w) → heap (step w).1 !! r = heap w !! r).
Proof.
  revert r.
  apply (step_inv (fun w' => ∀ r,
    grad <$> heap w' !! r = grad <$> heap w !! r ∧
    (r ∉ params (this w) → heap w' !! r = heap w !! r))).
  - intros r0 w' _ _ _ Hw' r. rewrite init_param_heap. apply Hw'.
  - intros w' _ Hw'. apply Hw'.
  - intros r0 w' Hr0 _ _ Hw' r.
    destruct (update_param_heap r0 w' r) as [Hg Hne].
    destruct (Hw' r) as [Hg' Hne']. split; [congruence|].
    intros Hr. rewrite Hne; [auto|]. intros ->. done.
  - done.
Qed.

Lemma step_never_writes_grad_witness :
  let w := mkWorld {[0 := param1; 1 := param2]} (default_optimizer [0]) in
  (grad <$> heap (step w).1 !! 0) = Some (Some (vector [0.1; 0.2; 0.3]%R)) ∧
  (1 ∉ params (this w)) ∧
  heap (step w).1 !! 1 = Some param2.
Proof.
  cbn zeta.
  assert (1 ∉ params (this (mkWorld {[0 := param1; 1 := param2]} (default_optimizer [0]))))
    as Hout.
  { simpl. intros H. apply list_elem_of_singleton in H. discriminate H. }
  split; [|split; [exact Hout|]].
  - exact (proj1 (step_never_writes_grad
             (mkWorld {[0 := param1; 1 := param2]} (default_optimizer [0])) 0)).
  - exact (proj2 (step_never_writes_grad
             (mkWorld {[0 := param1; 1 := param2]} (default_optimizer [0])) 1) Hout).
Defined.

(** ** The term [this.weightDecay * param.data] *)

Lemma broadcast_rev_same a : broadcast_rev a a = Some a.
Proof.
  induction a as [|x a IH]; [done|]. simpl. rewrite IH.
  repeat case_decide; congruence.
Qed.

Lemma broadcast_shape_same s : broadcast_shape s s = Some s.
Proof.
  unfold broadcast_shape. rewrite broadcast_rev_same. simpl.
  by rewrite rev_involutive.
Qed.

Lemma map_const_replicate {A B} (f : A → B) (l : list A) (c : B) :
  (∀ x, f x = c) → map f l = replicate (length l) c.
Proof. intros H. induction l as [|x l IH]; simpl; [done|]. by rewrite H, IH. Qed.

Lemma map_replicate {A B} (f : A → B) n (x : A) :
  map f (replicate n x) = replicate n (f x).
Proof. induction n as [|n IH]; simpl; [done|]. by rewrite IH. Qed.

(** An operation with an all-[NaN] second operand yields the all-[NaN]
    tensor of the broadcast shape, or throws when the shapes do not fit. *)
Lemma broadcast_op_NaN_tensor f a s :
  (∀ x, f x NaN = NaN) →
  broadcast_op f a (NaN_tensor s) =
  match broadcast_shape (shape a) s with
  | Some s' => Normal (NaN_tensor s')
  | None => Throw TfjsError
  end.
Proof.
  intros Hf. unfold broadcast_op. simpl.
  destruct (broadcast_shape (shape a) s) as [s'|]; [|done].
  unfold NaN_tensor. do 2 f_equal.
  rewrite (map_const_replicate _ _ NaN); [by rewrite length_seq|].
  intros i. rewrite (nth_all_NaN (replicate (size_of s) NaN)); [apply Hf|].
  by apply Forall_replicate.
Qed.

Lemma mul_n_NaN_tensor s c : mul_n (NaN_tensor s) c = NaN_tensor s.
Proof. unfold mul_n, tensor_map, NaN_tensor. simpl. by rewrite map_replicate. Qed.

(** Adding the number [NaN] to the result of a division by a rank-0
    tensor: the division never throws, and the sum is all [NaN]. *)
Lemma div_scalar_add_NaN g c :
  shape c = [] →
  (q ← div g c; Normal (add_n q NaN)) = Normal (NaN_tensor (shape g)).
Proof.
  intros Hc. unfold div, broadcast_op. rewrite Hc, broadcast_shape_nil_r. simpl.
  unfold NaN_tensor, add_n, tensor_map. simpl. do 2 f_equal.
  rewrite (map_const_replicate _ _ NaN) by apply jadd_NaN_r.
  by rewrite length_map, length_seq.
Qed.

Lemma weightDecay_term o p : jmul (weightDecay o) (ToNumber_Tensor (data p)) = NaN.
Proof. apply jmul_NaN_r. Qed.

(** The record the one-time pass stores: its [m] is all [NaN] whatever the
    gradient, the data and the options are. *)
Lemma init_state_eq o p g :
  grad p = Some g →
  init_state o p = Normal (State.mk 0 (square (tf_norm g)) (NaN_tensor (shape g)) None).
Proof.
  intros Hg. unfold init_state. rewrite Hg, weightDecay_term.
  pose proof (div_scalar_add_NaN g (add_n (tf_sqrt (square (tf_norm g))) (eps o)) eq_refl) as H.
  destruct (div g (add_n (tf_sqrt (square (tf_norm g))) (eps o))) as [q|e]; [|done].
  unfold mbind, Completion_bind, cbind in *.
  assert (add_n q NaN = NaN_tensor (shape g)) as -> by congruence. done.
Qed.

Lemma div_scalar g c :
  shape c = [] →
  ∃ q, div g c = Normal q ∧ shape q = shape g ∧ add_n q NaN = NaN_tensor (shape g).
Proof.
  intros Hc. unfold div, broadcast_op. rewrite Hc, broadcast_shape_nil_r.
  eexists. split; [done|]. split; [done|].
  unfold NaN_tensor, add_n, tensor_map. simpl. f_equal.
  rewrite (map_const_replicate _ _ NaN) by apply jadd_NaN_r.
  by rewrite length_map, length_seq.
Qed.

Lemma next_gradEMA_total o e g :
  (∀ x, e = Some x → is_scalar x) →
  ∃ ge, next_gradEMA o e (square (tf_norm g)) = Normal ge ∧ is_scalar ge.
Proof.
  intros He. destruct e as [x|]; unfold next_gradEMA.
  - apply broadcast_op_scalars.
    + apply is_scalar_tensor_map. by apply He.
    + apply is_scalar_tensor_map, is_scalar_square_norm.
  - eexists. split; [done | apply is_scalar_square_norm].
Qed.

Lemma normalized_grad_total o g ge :
  is_scalar ge → ∃ ng, normalized_grad o g ge = Normal ng ∧ shape ng = shape g.
Proof.
  intros [Hs _]. unfold normalized_grad.
  destruct (div_scalar g (add_n (tf_sqrt ge) (eps o)) Hs) as (q & -> & Hq & _).
  eexists. split; [done|]. by destruct (gradAveraging o).
Qed.

(** What one update computes, for a parameter whose gradient is set and a
    record that satisfies the invariant.  The scalars [gradEMA] and [v]
    follow lines 36 and 45; [m] and [data] are all [NaN], since line 46 adds
    the number [this.weightDecay * param.data]; the call throws exactly when
    the shapes of [m] and the gradient, or of [data] and the new [m], do not
    broadcast. *)
Lemma update_eq o p s g :
  grad p = Some g →
  is_scalar (State.v s) → (∀ x, State.gradEMA s = Some x → is_scalar x) →
  ∃ ge ng v',
    next_gradEMA o (State.gradEMA s) (square (tf_norm g)) = Normal ge ∧ is_scalar ge ∧
    normalized_grad o g ge = Normal ng ∧ shape ng = shape g ∧
    add (mul_n (State.v s) (beta2 o))
        (mul_n (square (tf_norm ng)) (jsub (Fin 1) (beta2 o))) = Normal v' ∧
    is_scalar v' ∧
    update o p s =
      match broadcast_shape (shape (State.m s)) (shape g) with
      | None => Throw TfjsError
      | Some sm =>
          match broadcast_shape (shape (data p)) sm with
          | None => Throw TfjsError
          | Some sd =>
              Normal (NaN_tensor sd,
                      State.mk (State.step s + 1) v' (NaN_tensor sm) (Some ge))
          end
      end.
Proof.
  intros Hg Hv He.
  destruct (next_gradEMA_total o (State.gradEMA s) g He) as (ge & Hge & Hges).
  destruct (normalized_grad_total o g ge Hges) as (ng & Hng & Hngs).
  destruct (broadcast_op_scalars jadd (mul_n (State.v s) (beta2 o))
    (mul_n (square (tf_norm ng)) (jsub (Fin 1) (beta2 o)))) as (v' & Hv' & Hv's).
  { by apply is_scalar_tensor_map. }
  { apply is_scalar_tensor_map, is_scalar_square_norm. }
  change (add (mul_n (State.v s) (beta2 o))
              (mul_n (square (tf_norm ng)) (jsub (Fin 1) (beta2 o))) = Normal v') in Hv'.
  exists ge, ng, v'. split_and!; try done.
  unfold update. rewrite Hg. unfold mbind, Completion_bind.
  rewrite Hge. cbn [cbind]. rewrite Hng. cbn [cbind]. rewrite Hv'. cbn [cbind].
  destruct (div_scalar ng (add_n (tf_sqrt v') (eps o))) as (q & Hq & _ & HqN).
  { apply Hv's. }
  rewrite Hq. cbn [cbind]. rewrite weightDecay_term, HqN, Hngs.
  unfold add at 1. rewrite broadcast_op_NaN_tensor by apply jadd_NaN_r.
  change (shape (mul_n (State.m s) (beta1 o))) with (shape (State.m s)).
  destruct (broadcast_shape (shape (State.m s)) (shape g)) as [sm|]; [|done].
  cbn [cbind]. rewrite mul_n_NaN_tensor. unfold sub.
  rewrite broadcast_op_NaN_tensor by apply jsub_NaN_r.
  by destruct (broadcast_shape (shape (data p)) sm).
Qed.

(** ** A call that returns: what each pass has done *)

Lemma update_config o o' p s : same_config o o' → update o' p s = update o p s.
Proof.
  intros (Hl & H1 & H2 & He & Hw & Ha & _).
  unfold update, next_gradEMA, normalized_grad, stepSize, biasCorrection1, biasCorrection2.
  by rewrite Hl, H1, H2, He, Hw, Ha.
Qed.

Lemma init_param_Normal r w w' u :
  init_param r w = (w', Normal u) →
  ∃ p s, heap w !! r = Some p ∧ init_state (this w) p = Normal s ∧ w' = set_state r s w.
Proof.
  unfold init_param. destruct (heap w !! r) as [p|]; [|done].
  destruct (init_state (this w) p) as [s|] eqn:Hs; [|done].
  intros [= <-]. eauto.
Qed.

(** The one-time pass, when it completes: the store is untouched, and every
    listed parameter has the record computed from its own gradient; other
    records are as before. *)
Lemma forEach_init_Normal l w w' u :
  forEach init_param l w = (w', Normal u) →
  heap w' = heap w ∧ same_config (this w) (this w') ∧
  momentumInitialized (this w') = momentumInitialized (this w) ∧
  (∀ r, r ∈ l → ∃ p s, heap w !! r = Some p ∧ init_state (this w) p = Normal s ∧
                        states (this w') !! r = Some s) ∧
  (∀ r, r ∉ l → states (this w') !! r = states (this w) !! r).
Proof.
  revert w. induction l as [|r0 l IH]; intros w H; simpl in H.
  - injection H as <-. split_and!; try done; try apply same_config_refl.
    intros r Hr. by apply elem_of_nil in Hr.
  - destruct (init_param r0 w) as [w1 [[]|e]] eqn:H0; [|done].
    apply init_param_Normal in H0 as (p0 & s0 & Hp0 & Hs0 & ->).
    apply IH in H as (Hh & Hc & Hb & Hin & Hout). simpl in *.
    split_and!; try done.
    + intros r Hr. destruct (decide (r ∈ l)) as [Hl|Hl].
      * destruct (Hin r Hl) as (p & s & Hp & Hs & Hst). exists p, s.
        split_and!; done.
      * apply elem_of_cons in Hr as [-> | Hr]; [|done].
        exists p0, s0. split_and!; try done.
        rewrite (Hout r0 Hl). apply lookup_insert_eq.
    + intros r Hr. apply not_elem_of_cons in Hr as [Hne Hl].
      rewrite (Hout r Hl). by apply lookup_insert_ne.
Qed.

Lemma update_param_Normal r w w' u :
  update_param r w = (w', Normal u) →
  ∃ p s d s', states (this w) !! r = Some s ∧ heap w !! r = Some p ∧
              update (this w) p s = Normal (d, s') ∧
              w' = set_state r s' (set_data r d w).
Proof.
  unfold update_param. destruct (states (this w) !! r) as [s|]; [|done].
  destruct (heap w !! r) as [p|]; [|done].
  destruct (update (this w) p s) as [[d s']|] eqn:Hu; [|done].
  intros [= <-]. by exists p, s, d, s'.
Qed.

(** The update pass over a list without repetition, when it completes:
    every listed parameter has been updated exactly once, from the record
    and the data it had when the pass began. *)
Lemma forEach_update_NoDup l w w' u :
  NoDup l → forEach update_param l w = (w', Normal u) →
  same_config (this w) (this w') ∧
  (∀ r, r ∈ l → ∃ p s d s',
     heap w !! r = Some p ∧ states (this w) !! r = Some s ∧
     update (this w) p s = Normal (d, s') ∧
     states (this w') !! r = Some s' ∧ heap w' !! r = Some (mkParam d (grad p))) ∧
  (∀ r, r ∉ l → heap w' !! r = heap w !! r ∧
                 states (this w') !! r = states (this w) !! r).
Proof.
  intros Hnd. revert w. induction Hnd as [|r0 l Hr0 Hnd IH]; intros w H; simpl in H.
  - injection H as <-. split_and!; [apply same_config_refl | | done].
    intros r Hr. by apply elem_of_nil in Hr.
  - destruct (update_param r0 w) as [w1 [[]|e]] eqn:H0; [|done].
    apply update_param_Normal in H0 as (p0 & s0 & d0 & s0' & Hs0 & Hp0 & Hu0 & ->).
    apply IH in H as (Hc & Hin & Hout). simpl in *.
    split_and!; [done | |].
    + intros r Hr. apply elem_of_cons in Hr as [-> | Hr].
      * exists p0, s0, d0, s0'. destruct (Hout r0 Hr0) as [Hh Hs].
        split_and!; try done.
        -- rewrite Hs. apply lookup_insert_eq.
        -- rewrite Hh, lookup_alter, decide_True by done. by rewrite Hp0.
      * assert (r0 ≠ r) as Hne by (intros ->; done).
        destruct (Hin r Hr) as (p & s & d & s' & Hp & Hs & Hu & Hs' & Hp').
        exists p, s, d, s'.
        rewrite lookup_alter, decide_False in Hp by done.
        rewrite lookup_insert_ne in Hs by done.
        split_and!; done.
    + intros r Hr. apply not_elem_of_cons in Hr as [Hne Hl].
      destruct (Hout r Hl) as [Hh Hs]. rewrite Hh, Hs.
      rewrite lookup_alter, decide_False by done.
      by rewrite lookup_insert_ne.
Qed.

(** ** A call on well-shaped gradients returns *)

Lemma forEach_Normal (P : World → Prop) f l w :
  (∀ r w', r ∈ l → P w' → (f r w').2 = Normal tt ∧ P (f r w').1) →
  P w → (forEach f l w).2 = Normal tt ∧ P (forEach f l w).1.
Proof.
  revert w. induction l as [|r l IH]; intros w Hf Hw; simpl; [done|].
  destruct (Hf r w) as [H2 H1]; [by left | done |].
  destruct (f r w) as [w' [[]|e]]; simpl in *; [|done].
  apply IH; [|done]. intros r' w'' Hr'. apply Hf. by right.
Qed.

Lemma update_param_ready r w :
  momentumInitialized (this w) = true → state_inv w → ready w → r ∈ params (this w) →
  (update_param r w).2 = Normal tt ∧ ready (update_param r w).1.
Proof.
  intros Hb Hinv Hrdy Hr.
  destruct (Hrdy r Hr) as (p & g & Hp & Hg & Hsh & Hs). rewrite Hb in Hs.
  destruct Hs as (s & Hs & Hm).
  destruct (Hinv r s Hs) as [Hv _].
  destruct (update_eq (this w) p s g Hg Hv) as (ge & ng & v' & _ & _ & _ & _ & _ & _ & Hu).
  { intros x. by apply (state_inv_gradEMA w r). }
  rewrite Hm, broadcast_shape_same, <- Hsh, broadcast_shape_same in Hu.
  unfold update_param. rewrite Hs, Hp, Hu. simpl. split; [done|].
  intros r' Hr'. simpl in Hr'. simpl. rewrite Hb.
  destruct (Hrdy r' Hr') as (p' & g' & Hp' & Hg' & Hsh' & Hs'). rewrite Hb in Hs'.
  rewrite lookup_alter, lookup_insert. case_decide as Hd.
  - subst r'. rewrite Hp. simpl. exists (mkParam (NaN_tensor (shape g)) (grad p)), g.
    split_and!; try done. eauto.
  - exists p', g'. split_and!; done.
Qed.

(** A call on a [ready] world returns normally and leaves the world [ready]
    (as long as the caller keeps the gradients' shapes). *)
Lemma step_returns w :
  state_inv w → ready w → (step w).2 = Normal tt ∧ ready (step w).1.
Proof.
  intros Hinv Hrdy.
  assert (∃ w1, init_pass w = (w1, Normal tt) ∧ params (this w1) = params (this w) ∧
                momentumInitialized (this w1) = true ∧ state_inv w1 ∧ ready w1)
    as (w1 & H1 & Hps & Hb1 & Hinv1 & Hrdy1).
  { unfold init_pass. destruct (momentumInitialized (this w)) eqn:Hb; [by exists w|].
    destruct (forEach_Normal (fun w' => heap w' = heap w ∧
        same_config (this w) (this w') ∧ state_inv w')
      init_param (params (this w)) w) as [HN (Hh & Hc & Hi)].
    { intros r w' Hr (Hh & Hc & Hi).
      destruct (Hrdy r Hr) as (p & g & Hp & Hg & _).
      split.
      - unfold init_param. rewrite Hh, Hp, (init_state_eq _ _ _ Hg). done.
      - split_and!.
        + by rewrite init_param_heap.
        + eapply same_config_trans; [done | apply init_param_config].
        + by apply init_param_state_inv. }
    { split_and!; [done | apply same_config_refl | done]. }
    destruct (forEach init_param (params (this w)) w) as [w' c] eqn:HF.
    simpl in *. subst c.
    exists (set_momentumInitialized true w'). split; [done|].
    apply forEach_init_Normal in HF as (_ & _ & _ & Hin & _).
    split_and!; [apply Hc | done | by apply set_flag_state_inv |].
    intros r Hr. simpl in Hr. assert (params (this w') = params (this w)) as Hps by apply Hc.
    rewrite Hps in Hr.
    destruct (Hrdy r Hr) as (p & g & Hp & Hg & Hsh & _).
    destruct (Hin r Hr) as (p' & s & Hp' & Hs & Hst).
    rewrite Hp in Hp'. injection Hp' as <-.
    rewrite (init_state_eq _ _ _ Hg) in Hs. injection Hs as <-.
    exists p, g. simpl. rewrite Hh. split_and!; try done. eauto. }
  unfold step. rewrite H1. unfold update_pass.
  destruct (forEach_Normal (fun w' => params (this w') = params (this w1) ∧
      momentumInitialized (this w') = true ∧ state_inv w' ∧ ready w')
    update_param (params (this w1)) w1) as [HN (_ & _ & _ & Hr)]; [| done | done].
  intros r w' Hr (Hps' & Hb' & Hi' & Hr').
  rewrite <- Hps' in Hr.
  destruct (update_param_ready r w' Hb' Hi' Hr' Hr) as [H2 H3].
  split; [done|]. split_and!; try done.
  - rewrite <- Hps'. apply update_param_config.
  - by rewrite update_param_flag.
  - by apply update_param_state_inv.
Qed.

(** ** The first call on a fresh optimizer *)

(** When the first call returns and no parameter object is listed twice,
    the record of each parameter is the update (lines 31-58) of the record
    the one-time pass stored for it (lines 21-24), and its data is the data
    that update computed. *)
Lemma first_step w :
  momentumInitialized (this w) = false → NoDup (params (this w)) →
  (step w).2 = Normal tt →
  ∀ r, r ∈ params (this w) →
    ∃ p g s0 d s',
      heap w !! r = Some p ∧ grad p = Some g ∧
      init_state (this w) p = Normal s0 ∧ update (this w) p s0 = Normal (d, s') ∧
      states (this (step w).1) !! r = Some s' ∧
      heap (step w).1 !! r = Some (mkParam d (grad p)).
Proof.
  intros Hb Hnd. unfold step, init_pass. rewrite Hb.
  destruct (forEach init_param (params (this w)) w) as [w1 [[]|e]] eqn:HI; [|done].
  apply forEach_init_Normal in HI as (Hh & Hc & _ & Hin & _).
  unfold update_pass.
  assert (params (this (set_momentumInitialized true w1)) = params (this w)) as ->
    by apply Hc.
  destruct (forEach update_param (params (this w)) (set_momentumInitialized true w1))
    as [w2 c] eqn:HU.
  simpl. intros ->. apply forEach_update_NoDup in HU as (_ & Hup & _); [|done].
  intros r Hr.
  destruct (Hin r Hr) as (p & s0 & Hp & Hs0 & Hst).
  destruct (Hup r Hr) as (p' & s0' & d & s' & Hp' & Hst' & Hu & Hs' & Hd).
  simpl in Hp', Hst'. rewrite Hh, Hp in Hp'. injection Hp' as <-.
  rewrite Hst in Hst'. injection Hst' as <-.
  rewrite (update_config (this w)) in Hu by exact Hc.
  destruct (grad p) as [g|] eqn:Hg; [|unfold init_state in Hs0; by rewrite Hg in Hs0].
  exists p, g, s0, d, s'. rewrite Hg. split_and!; done.
Qed.

Lemma Rsum_squares_nonneg l : (0 <= Rsum_squares l)%R.
Proof. induction l as [|x l IH]; simpl; [lra | nra]. Qed.

Lemma sum_squares_Fin l : sum_squares (map Fin l) = Fin (Rsum_squares l).
Proof.
  induction l as [|x l IH]; [done|].
  change (jadd (jmul (Fin x) (Fin x)) (sum_squares (map Fin l)) =
          Fin (x * x + Rsum_squares l)).
  by rewrite IH.
Qed.

(** [tf.norm(g).square()] is the sum of the squares of the entries of [g]. *)
Lemma square_norm_Fin g l :
  values g = map Fin l → square (tf_norm g) = tf_scalar (Fin (Rsum_squares l)).
Proof.
  intros Hl. unfold square, tf_norm, tensor_map, tf_scalar. simpl.
  rewrite Hl, sum_squares_Fin, jsqrt_Fin by apply Rsum_squares_nonneg.
  simpl. by rewrite sqrt_sqrt by apply Rsum_squares_nonneg.
Qed.

(** The first update of a record the one-time pass has just stored. *)
Lemma update_after_init o p g s0 d s' :
  grad p = Some g → init_state o p = Normal s0 → update o p s0 = Normal (d, s') →
  ∃ ng q,
    normalized_grad o g (square (tf_norm g)) = Normal ng ∧
    add (mul_n (State.v s0) (beta2 o))
        (mul_n (square (tf_norm ng)) (jsub (Fin 1) (beta2 o))) = Normal (State.v s') ∧
    div ng (add_n (tf_sqrt (State.v s')) (eps o)) = Normal q ∧
    add (mul_n (State.m s0) (beta1 o))
        (add_n q (jmul (weightDecay o) (ToNumber_Tensor (data p)))) = Normal (State.m s') ∧
    sub (data p) (mul_n (State.m s') (stepSize o 0)) = Normal d ∧
    State.step s' = 1 ∧ State.gradEMA s' = Some (square (tf_norm g)).
Proof.
  intros Hg Hs0. rewrite (init_state_eq _ _ _ Hg) in Hs0. injection Hs0 as <-.
  unfold update. rewrite Hg. cbn [State.gradEMA State.v State.m State.step next_gradEMA].
  intros H. inv_bind H. injection H as <- <-. simpl in E. injection E as <-.
  exists t0, t2. split_and!; done.
Qed.

(** How often a record is updated: once for every occurrence of its
    parameter in the list. *)
Lemma forEach_update_count l w w' u :
  forEach update_param l w = (w', Normal u) →
  ∀ r s, states (this w) !! r = Some s →
    ∃ s', states (this w') !! r = Some s' ∧
          State.step s' = State.step s + count_occ Nat.eq_dec l r.
Proof.
  revert w. induction l as [|r0 l IH]; intros w H r s Hs; simpl in H.
  - injection H as <-. exists s. simpl. split; [done | lia].
  - destruct (update_param r0 w) as [w1 [[]|e]] eqn:H0; [|done].
    apply update_param_Normal in H0 as (p0 & s0 & d0 & s0' & Hs0 & _ & Hu0 & ->).
    apply update_step in Hu0 as [Hst _]. simpl. destruct (Nat.eq_dec r0 r) as [->|Hne].
    + rewrite Hs in Hs0. injection Hs0 as <-.
      destruct (IH _ H r s0') as (s' & Hs' & Hc); [apply lookup_insert_eq|].
      exists s'. split; [done | lia].
    + destruct (IH _ H r s) as (s' & Hs' & Hc); [simpl; by rewrite lookup_insert_ne|].
      exists s'. split; [done | lia].
Qed.

(** After the first call, a record has been updated as many times as its
    parameter occurs in the list. *)
Lemma first_step_count w :
  momentumInitialized (this w) = false → (step w).2 = Normal tt →
  ∀ r, r ∈ params (this w) →
    ∃ s, states (this (step w).1) !! r = Some s ∧
         State.step s = count_occ Nat.eq_dec (params (this w)) r.
Proof.
  intros Hb. unfold step, init_pass. rewrite Hb.
  destruct (forEach init_param (params (this w)) w) as [w1 [[]|e]] eqn:HI; [|done].
  apply forEach_init_Normal in HI as (_ & Hc & _ & Hin & _).
  unfold update_pass.
  assert (params (this (set_momentumInitialized true w1)) = params (this w)) as ->
    by apply Hc.
  destruct (forEach update_param (params (this w)) (set_momentumInitialized true w1))
    as [w2 c] eqn:HU.
  simpl. intros -> r Hr.
  destruct (Hin r Hr) as (p & s0 & _ & Hs0 & Hst).
  destruct (forEach_update_count _ _ _ _ HU r s0 Hst) as (s' & Hs' & Hcnt).
  apply init_state_Normal in Hs0 as (H0 & _). exists s'. split; [done | lia].
Qed.

(** C6, amended.  On a fresh optimizer whose parameter list names no object
    twice, when the first [step] call returns, every managed parameter has a
    record with [step = 1] and [gradEMA] equal to [tf.norm(grad).square()],
    which for a gradient of finite entries is the sum of their squares. *)
Theorem first_step_stepCount_gradEMA ps options o h :
  constructor ps options = Normal o → NoDup ps →
  (step (mkWorld h o)).2 = Normal tt →
  ∀ r, r ∈ ps →
    ∃ p g s, h !! r = Some p ∧ grad p = Some g ∧
      states (this (step (mkWorld h o)).1) !! r = Some s ∧
      State.step s = 1 ∧ State.gradEMA s = Some (square (tf_norm g)) ∧
      (∀ l, values g = map Fin l →
            State.gradEMA s = Some (tf_scalar (Fin (Rsum_squares l)))).
Proof.
  intros Ho Hnd HN r Hr. apply constructor_fresh in Ho as (Hps & _ & Hb).
  destruct (first_step (mkWorld h o)) with (r := r)
    as (p & g & s0 & d & s' & Hp & Hg & Hs0 & Hu & Hs' & _); simpl; try done;
    try by rewrite Hps.
  destruct (update_after_init _ _ _ _ _ _ Hg Hs0 Hu) as (ng & q & _ & _ & _ & _ & _ & Hst & He).
  exists p, g, s'. simpl in Hp. split_and!; try done.
  intros l Hl. by rewrite He, (square_norm_Fin g l).
Qed.

Lemma first_step_stepCount_gradEMA_witness :
  ∃ p g s, ({[0 := param1]} : gmap ref Param) !! 0 = Some p ∧ grad p = Some g ∧
    states (this (step (mkWorld {[0 := param1]} (default_optimizer [0]))).1) !! 0 = Some s ∧
    State.step s = 1 ∧ State.gradEMA s = Some (square (tf_norm g)) ∧
    (∀ l, values g = map Fin l →
          State.gradEMA s = Some (tf_scalar (Fin (Rsum_squares l)))).
Proof.
  apply (first_step_stepCount_gradEMA [0] None (default_optimizer [0]) {[0 := param1]}).
  - reflexivity.
  - apply NoDup_singleton.
  - apply step_returns.
    + by apply fresh_state_inv.
    + intros r Hr. apply list_elem_of_singleton in Hr as ->.
      exists param1, (vector [0.1; 0.2; 0.3]%R). split_and!; reflexivity.
  - apply list_elem_of_singleton. reflexivity.
Defined.

(** C6 as stated fails when a parameter object is listed twice: the list
    [[p, p]] is not empty, the first call returns, and the record of [p] has
    [step = 2], because the update loop visits [p] twice. *)
Lemma repeated_parameter_stepCount :
  constructor [0; 0] None = Normal (default_optimizer [0; 0]) ∧
  (step (mkWorld {[0 := param1]} (default_optimizer [0; 0]))).2 = Normal tt ∧
  ∃ s, states (this (step (mkWorld {[0 := param1]} (default_optimizer [0; 0]))).1) !! 0
       = Some s ∧ State.step s = 2.
Proof.
  split; [reflexivity|].
  assert ((step (mkWorld {[0 := param1]} (default_optimizer [0; 0]))).2 = Normal tt) as HN.
  { apply step_returns.
    - by apply fresh_state_inv.
    - intros r Hr. assert (r = 0) as ->.
      { simpl in Hr. apply elem_of_cons in Hr as [-> | Hr]; [done|].
        by apply list_elem_of_singleton in Hr. }
      exists param1, (vector [0.1; 0.2; 0.3]%R). split_and!; reflexivity. }
  split; [done|].
  destruct (first_step_count (mkWorld {[0 := param1]} (default_optimizer [0; 0])))
    with (r := 0) as (s & Hs & Hc); [done | done | by left |].
  exists s. split; [done|]. by rewrite Hc.
Qed.

(** ** The record of the one-time pass is the prior state of the first update *)

Lemma forEach_app f l1 l2 w :
  forEach f (l1 ++ l2) w =
  match forEach f l1 w with
  | (w', Normal _) => forEach f l2 w'
  | (w', Throw e) => (w', Throw e)
  end.
Proof.
  revert w. induction l1 as [|r l1 IH]; intros w; simpl; [done|].
  destruct (f r w) as [w' [[]|e]]; [apply IH | done].
Qed.

(** Updates of other parameters leave a parameter's object and record alone. *)
Lemma forEach_update_frame l w r :
  r ∉ l →
  heap (forEach update_param l w).1 !! r = heap w !! r ∧
  states (this (forEach update_param l w).1) !! r = states (this w) !! r.
Proof.
  intros Hr.
  apply (forEach_inv (fun w' => heap w' !! r = heap w !! r ∧
                                states (this w') !! r = states (this w) !! r)); [|done].
  intros r0 w' Hr0 [Hh Hs]. assert (r ≠ r0) as Hne by (intros ->; done).
  destruct (update_param_heap r0 w' r) as [_ Hh']. split.
  - by rewrite Hh'.
  - destruct (update_param_states r0 w') as [-> | (p & s & d & s' & _ & _ & _ & ->)];
      [done|]. by rewrite lookup_insert_ne.
Qed.

(** ** The state map over sequences of calls *)

(** The scalar arithmetic of lines 36 and 45, entry by entry. *)
Lemma add_mul_scalars a b c1 c2 t :
  is_scalar a → is_scalar b →
  add (mul_n a c1) (mul_n b c2) = Normal t →
  is_scalar t ∧
  scalar_val t = jadd (jmul (scalar_val a) c1) (jmul (scalar_val b) c2).
Proof.
  intros [Ha La] [Hb Lb]. destruct a as [sa va], b as [sb vb]. simpl in *. subst.
  destruct va as [|x [|? ?]]; try done. destruct vb as [|y [|? ?]]; try done.
  unfold add, broadcast_op. simpl. intros [= <-]. by split.
Qed.

(** The normalized gradient (lines 38-42), entry by entry. *)
Lemma normalized_grad_values o g ge ng :
  well_formed g → is_scalar ge → normalized_grad o g ge = Normal ng →
  shape ng = shape g ∧
  values ng = map (normalized_entry o (scalar_val ge)) (values g).
Proof.
  intros Hg [Hs Hl]. unfold normalized_grad, div.
  rewrite broadcast_op_scalar_values; [|done|done].
  unfold mbind, Completion_bind; cbn [cbind]. intros [= <-].
  destruct ge as [sh vs]. simpl in *. subst sh.
  destruct vs as [|y [|? ?]]; try done.
  unfold normalized_entry, scalar_val. simpl.
  destruct (gradAveraging o); simpl; [by rewrite map_map | done].
Qed.

(** What a completed update stores in the scalar fields (lines 34-45 and
    55-58), in numbers. *)
Lemma update_values o p s d s' :
  is_scalar (State.v s) → (∀ e, State.gradEMA s = Some e → is_scalar e) →
  update o p s = Normal (d, s') →
  ∃ g ge ng,
    grad p = Some g ∧ State.step s' = State.step s + 1 ∧
    State.gradEMA s' = Some ge ∧ is_scalar ge ∧ is_scalar (State.v s') ∧
    scalar_val ge =
      match State.gradEMA s with
      | None => squared_norm (values g)
      | Some e => jadd (jmul (scalar_val e) (beta2 o))
                       (jmul (squared_norm (values g)) (jsub (Fin 1) (beta2 o)))
      end ∧
    normalized_grad o g ge = Normal ng ∧
    scalar_val (State.v s') =
      jadd (jmul (scalar_val (State.v s)) (beta2 o))
           (jmul (squared_norm (values ng)) (jsub (Fin 1) (beta2 o))).
Proof.
  intros Hv He. unfold update. destruct (grad p) as [g|]; [|done].
  intros H. inv_bind H. injection H as <- <-. simpl.
  exists g, t, t0.
  assert (is_scalar t ∧
          scalar_val t =
            match State.gradEMA s with
            | None => squared_norm (values g)
            | Some e => jadd (jmul (scalar_val e) (beta2 o))
                             (jmul (squared_norm (values g)) (jsub (Fin 1) (beta2 o)))
            end) as [Ht Htv].
  { unfold next_gradEMA in E. destruct (State.gradEMA s) as [e|].
    - apply add_mul_scalars in E; [done | by apply He | apply is_scalar_square_norm].
    - injection E as <-. split; [apply is_scalar_square_norm | done]. }
  apply add_mul_scalars in E1 as [Hv' Hvv]; [|done | apply is_scalar_square_norm].
  split_and!; done.
Qed.






Lemma forEach_Throw f l w w' e :
  forEach f l w = (w', Throw e) →
  ∃ l1 r l2 w2, l = l1 ++ r :: l2 ∧ (forEach f l1 w).1 = w2 ∧
                (forEach f l1 w).2 = Normal tt ∧ f r w2 = (w', Throw e).
Proof.
  revert w. induction l as [|r l IH]; intros w H; simpl in H; [done|].
  destruct (f r w) as [w1 [[]|e1]] eqn:H1.
  - destruct (IH _ H) as (l1 & r' & l2 & w2 & -> & Hw2 & HN & Hr').
    exists (r :: l1), r', l2, w2. simpl. rewrite H1. done.
  - injection H as <- <-. exists [], r, l, w. done.
Qed.






Lemma init_param_eq r w p g :
  heap w !! r = Some p → grad p = Some g →
  init_param r w =
  (set_state r (State.mk 0 (square (tf_norm g)) (NaN_tensor (shape g)) None) w, Normal tt).
Proof. intros Hp Hg. unfold init_param. by rewrite Hp, (init_state_eq _ _ _ Hg). Qed.

Lemma init_param_no_grad r w p :
  heap w !! r = Some p → grad p = None → init_param r w = (w, Throw TfjsError).
Proof. intros Hp Hg. unfold init_param, init_state. by rewrite Hp, Hg. Qed.


(** ** The constructor *)

(** C2, amended.  The constructor validates nothing: for every parameter
    list and every options object it returns an optimizer that holds the
    options as given, the documented defaults for absent ones, an empty
    state map and an unset flag. *)
Theorem constructor_accepts_every_configuration ps options :
  ∃ o, constructor ps options = Normal o ∧
    lr o = default (Fin 0.1) (options ≫= Options.lr) ∧
    beta1 o = default (Fin 0.95) (fst <$> (options ≫= Options.betas)) ∧
    beta2 o = default (Fin 0.98) (snd <$> (options ≫= Options.betas)) ∧
    eps o = default (Fin 1e-8) (options ≫= Options.eps) ∧
    weightDecay o = default (Fin 0) (options ≫= Options.weightDecay) ∧
    gradAveraging o = default false (options ≫= Options.gradAveraging) ∧
    params o = ps ∧ states o = ∅ ∧ momentumInitialized o = false.
Proof.
  eexists. split; [reflexivity|].
  destruct options as [[l b e wd ga]|]; simpl; [|by repeat split].
  destruct b as [[b1 b2]|]; by repeat split.
Qed.

(** C2 as stated fails: with [beta1 = 1.5] the constructor returns an
    optimizer, it raises nothing. *)
Lemma constructor_accepts_beta1_too_large :
  constructor [0] (Some options_beta1_too_large) =
  Normal (mkNovoGrad (Fin 0.1) (Fin 1.5) (Fin 0.98) (Fin 1e-8) (Fin 0) false false [0] ∅).
Proof. reflexivity. Qed.

(** ** Calls that throw *)

Lemma update_param_Throw r w w' e : update_param r w = (w', Throw e) → w' = w.
Proof.
  unfold update_param. destruct (states (this w) !! r) as [s|]; [|by intros [= <-]].
  destruct (heap w !! r) as [p|]; [|by intros [= <-]].
  destruct (update (this w) p s) as [[d s']|]; [done | by intros [= <-]].
Qed.

Lemma forEach_init_heap l w : heap (forEach init_param l w).1 = heap w.
Proof.
  apply (forEach_inv (fun w' => heap w' = heap w)); [|done].
  intros r w' _ <-. apply init_param_heap.
Qed.

Lemma init_pass_heap w : heap (init_pass w).1 = heap w.
Proof.
  unfold init_pass. destruct (momentumInitialized (this w)); [done|].
  pose proof (forEach_init_heap (params (this w)) w) as H.
  by destruct (forEach init_param (params (this w)) w) as [w' [[]|e]].
Qed.

(** The one-time pass throws when some listed parameter has no gradient. *)
Lemma forEach_init_missing_grad l w r p :
  r ∈ l → heap w !! r = Some p → grad p = None →
  ∃ e, (forEach init_param l w).2 = Throw e.
Proof.
  intros Hr Hp Hg. revert w Hp. induction l as [|r0 l IH]; intros w Hp.
  { by apply elem_of_nil in Hr. }
  simpl. destruct (init_param r0 w) as [w1 [[]|e]] eqn:H0; [|by exists e].
  apply elem_of_cons in Hr as [-> | Hr].
  - by rewrite (init_param_no_grad _ _ _ Hp Hg) in H0.
  - apply IH; [done|].
    replace w1 with (init_param r0 w).1 by (by rewrite H0).
    by rewrite init_param_heap.
Qed.

Lemma init_pass_params w : params (this (init_pass w).1) = params (this w).
Proof.
  unfold init_pass. destruct (momentumInitialized (this w)); [done|].
  pose proof (forEach_inv (fun w' => params (this w') = params (this w))
    init_param (params (this w)) w) as Hi.
  destruct (forEach init_param (params (this w)) w) as [w' [[]|e']]; simpl in *.
  - apply Hi; [|done]. intros r' w'' _ <-. apply init_param_config.
  - apply Hi; [|done]. intros r' w'' _ <-. apply init_param_config.
Qed.

(** One callback of the update loop, for a parameter whose gradient is set
    and whose record satisfies the invariant. *)
Lemma update_param_eq r w p s g :
  states (this w) !! r = Some s → heap w !! r = Some p → grad p = Some g →
  is_scalar (State.v s) → (∀ x, State.gradEMA s = Some x → is_scalar x) →
  ∃ ge v', is_scalar ge ∧ is_scalar v' ∧
    update_param r w =
    match broadcast_shape (shape (State.m s)) (shape g) with
    | None => (w, Throw TfjsError)
    | Some sm =>
        match broadcast_shape (shape (data p)) sm with
        | None => (w, Throw TfjsError)
        | Some sd =>
            (set_state r (State.mk (State.step s + 1) v' (NaN_tensor sm) (Some ge))
               (set_data r (NaN_tensor sd) w), Normal tt)
        end
    end.
Proof.
  intros Hs Hp Hg Hv He.
  destruct (update_eq (this w) p s g Hg Hv He) as (ge & ng & v' & _ & Hge & _ & _ & _ & Hv' & Hu).
  exists ge, v'. split; [done|]. split; [done|].
  unfold update_param. rewrite Hs, Hp, Hu.
  destruct (broadcast_shape (shape (State.m s)) (shape g)) as [sm|]; [|done].
  by destruct (broadcast_shape (shape (data p)) sm).
Qed.

(** C3, amended.  [step] has no validation pass.  On a call with the flag
    unset, an unset gradient of a managed parameter makes the one-time pass
    throw, and the store is left as it was.  A call that throws either
    throws in the one-time pass, with the store as it was, or throws in the
    update loop at some list entry [r]: the callbacks of the entries [l1]
    before [r] have run to completion, and every object that is not among
    [l1] is as it was before the call.  A gradient whose shape differs from
    the data's is not detected as such: for a parameter with its gradient
    set and a record that satisfies the invariant, the callback returns
    exactly when the shapes of [m] and the gradient, and then of the data
    and that result, broadcast. *)
Theorem step_throws_after_partial_update :
  (∀ w r p, momentumInitialized (this w) = false → r ∈ params (this w) →
     heap w !! r = Some p → grad p = None →
     (∃ e, (step w).2 = Throw e) ∧ heap (step w).1 = heap w) ∧
  (∀ w e, (step w).2 = Throw e →
     ((init_pass w).2 = Throw e ∧ heap (step w).1 = heap w) ∨
     (∃ w1 l1 r l2 w2,
        init_pass w = (w1, Normal tt) ∧ params (this w) = l1 ++ r :: l2 ∧
        forEach update_param l1 w1 = (w2, Normal tt) ∧
        update_param r w2 = (w2, Throw e) ∧ (step w).1 = w2 ∧
        ∀ x, x ∉ l1 → heap w2 !! x = heap w !! x)) ∧
  (∀ w r p s g,
     states (this w) !! r = Some s → heap w !! r = Some p → grad p = Some g →
     is_scalar (State.v s) → (∀ x, State.gradEMA s = Some x → is_scalar x) →
     ((update_param r w).2 = Normal tt ↔
      ∃ sm sd, broadcast_shape (shape (State.m s)) (shape g) = Some sm ∧
               broadcast_shape (shape (data p)) sm = Some sd)).
Proof.
  split_and!.
  - intros w r p Hb Hr Hp Hg. unfold step.
    pose proof (init_pass_heap w) as Hh. unfold init_pass in *. rewrite Hb in *.
    destruct (forEach_init_missing_grad _ w r p Hr Hp Hg) as [e He].
    destruct (forEach init_param (params (this w)) w) as [w1 [[]|e1]]; [done|].
    simpl in *. eauto.
  - intros w e. unfold step.
    pose proof (init_pass_heap w) as Hh. pose proof (init_pass_params w) as Hps.
    destruct (init_pass w) as [w1 [[]|e1]] eqn:H1; simpl in *.
    + unfold update_pass. rewrite Hps.
      destruct (forEach update_param (params (this w)) w1) as [w' c] eqn:HU.
      simpl. intros ->. right.
      apply forEach_Throw in HU as (l1 & r & l2 & w2 & Hl & Hw2 & HN & Hr).
      pose proof (update_param_Throw _ _ _ _ Hr) as ->.
      exists w1, l1, r, l2, w2. split_and!; try done.
      * destruct (forEach update_param l1 w1) as [w3 c3]. simpl in *. by subst.
      * intros x Hx. destruct (forEach_update_frame l1 w1 x Hx) as [Hf _].
        by rewrite <- Hw2, Hf, Hh.
    + intros [= ->]. by left.
  - intros w r p s g Hs Hp Hg Hv He.
    destruct (update_param_eq r w p s g Hs Hp Hg Hv He) as (ge & v' & _ & _ & ->).
    destruct (broadcast_shape (shape (State.m s)) (shape g)) as [sm|] eqn:Hm.
    + destruct (broadcast_shape (shape (data p)) sm) as [sd|] eqn:Hd; simpl.
      * split; [intros _; by exists sm, sd | done].
      * split; [done|]. intros (sm' & sd' & [= <-] & Hd'). congruence.
    + simpl. split; [done|]. intros (sm' & sd' & Hm' & _). discriminate Hm'.
Qed.

Lemma step_throws_after_partial_update_witness :
  let w := mkWorld heap_missing_grad (default_optimizer [0; 1]) in
  momentumInitialized (this w) = false ∧ 1 ∈ params (this w) ∧
  heap w !! 1 = Some param_no_grad ∧ grad param_no_grad = None ∧
  (∃ e, (step w).2 = Throw e) ∧ heap (step w).1 = heap w.
Proof.
  cbn zeta. destruct step_throws_after_partial_update as (H1 & _ & _).
  assert (1 ∈ params (this (mkWorld heap_missing_grad (default_optimizer [0; 1])))) as Hin.
  { simpl. apply elem_of_cons. right. apply list_elem_of_singleton. reflexivity. }
  split; [reflexivity|]. split; [exact Hin|]. split; [reflexivity|].
  split; [reflexivity|].
  apply (H1 _ 1 param_no_grad); [reflexivity | exact Hin | reflexivity | reflexivity].
Defined.

(** Evaluates the first broadcast of concrete shapes in the goal. *)
Ltac bshape r :=
  lazymatch goal with
  | |- context [broadcast_shape ?a ?b] =>
      change (broadcast_shape a b) with r; cbv iota beta
  end.

(** C3 as stated fails.  With parameters [[p0, p1]], where the gradient of
    [p1] has three entries and its data two, the first call throws at [p1]
    after it has overwritten the data of [p0].  And a gradient of one entry
    for data of three entries raises nothing at all: the shapes broadcast. *)
Lemma shape_mismatch_after_data_write :
  let w := mkWorld {[0 := param1; 1 := param_shape_2_3]} (default_optimizer [0; 1]) in
  (step w).2 = Throw TfjsError ∧
  heap w !! 0 = Some (mkParam (vector [1; 2; 3]%R) (Some (vector [0.1; 0.2; 0.3]%R))) ∧
  heap (step w).1 !! 0 = Some (mkParam (NaN_tensor [3]) (Some (vector [0.1; 0.2; 0.3]%R))) ∧
  (step (mkWorld {[0 := param_shape_3_1]} (default_optimizer [0]))).2 = Normal tt.
Proof.
  cbn zeta.
  set (w := mkWorld {[0 := param1; 1 := param_shape_2_3]} (default_optimizer [0; 1])).
  assert (∃ w', step w = (w', Throw TfjsError) ∧
            heap w' !! 0 = Some (mkParam (NaN_tensor [3]) (Some (vector [0.1; 0.2; 0.3]%R))))
    as (w' & -> & Hw').
  { unfold step, init_pass.
    change (momentumInitialized (this w)) with false.
    change (params (this w)) with [0; 1].
    cbn [forEach].
    rewrite (init_param_eq 0 _ param1 (vector [0.1; 0.2; 0.3]%R)) by reflexivity.
    rewrite (init_param_eq 1 _ param_shape_2_3 (vector [0.4; 0.5; 0.6]%R)) by reflexivity.
    unfold update_pass.
    match goal with |- context [forEach update_param ?l ?w1] =>
      change l with [0; 1]; set (w1' := w1) end.
    cbn [forEach].
    destruct (update_param_eq 0 w1' param1
                (State.mk 0 (square (tf_norm (vector [0.1; 0.2; 0.3]%R))) (NaN_tensor [3]) None)
                (vector [0.1; 0.2; 0.3]%R))
      as (ge & v' & _ & _ & ->); try reflexivity; try done.
    bshape (Some [3]). bshape (Some [3]).
    match goal with |- context [update_param 1 ?w2] => set (w2' := w2) end.
    destruct (update_param_eq 1 w2' param_shape_2_3
                (State.mk 0 (square (tf_norm (vector [0.4; 0.5; 0.6]%R))) (NaN_tensor [3]) None)
                (vector [0.4; 0.5; 0.6]%R))
      as (ge2 & v2' & _ & _ & ->); try reflexivity; try done.
    bshape (Some [3]). bshape (@None (list nat)).
    eexists. split; [reflexivity|]. reflexivity. }
  split; [reflexivity|]. split; [reflexivity|]. split; [exact Hw'|].
  clear. set (w := mkWorld {[0 := param_shape_3_1]} (default_optimizer [0])).
  unfold step, init_pass.
  change (momentumInitialized (this w)) with false.
  change (params (this w)) with [0].
  cbn [forEach].
  rewrite (init_param_eq 0 _ param_shape_3_1 (vector [0.5]%R)) by reflexivity.
  unfold update_pass.
  match goal with |- context [forEach update_param ?l ?w1] =>
    change l with [0]; set (w1' := w1) end.
  cbn [forEach].
  destruct (update_param_eq 0 w1' param_shape_3_1
              (State.mk 0 (square (tf_norm (vector [0.5]%R))) (NaN_tensor [1]) None)
              (vector [0.5]%R))
    as (ge & v' & _ & _ & ->); try reflexivity; try done.
Qed.

(** ** The step size (lines 48-51) *)

Section StepSize.
Local Open Scope R_scope.

Lemma pow_succ_lt_1 b n : 0 < b < 1 → 0 < b ^ (n + 1) < 1.
Proof.
  intros [H0 H1]. split; [by apply pow_lt|].
  apply pow_lt_1_compat; [lra | lia].
Qed.

Lemma Un_cv_ext (f g : nat → R) l : (∀ n, f n = g n) → Un_cv g l → Un_cv f l.
Proof.
  intros Hfg Hg e He. destruct (Hg e He) as [N HN]. exists N.
  intros n Hn. rewrite Hfg. by apply HN.
Qed.

Lemma Un_cv_const c : Un_cv (fun _ => c) c.
Proof.
  intros e He. exists 0%nat. intros n _. unfold Rdist.
  replace (c - c) with 0 by lra. by rewrite Rabs_R0.
Qed.

Lemma pow_succ_cv_0 b : 0 < b < 1 → Un_cv (fun n => b ^ (n + 1)) 0.
Proof.
  intros Hb e He.
  destruct (pow_lt_1_zero b) with (y := e) as [N HN]; [|done|].
  { rewrite Rabs_pos_eq; lra. }
  exists N. intros n Hn. unfold Rdist.
  replace (b ^ (n + 1) - 0) with (b ^ (n + 1)) by lra.
  apply HN. lia.
Qed.

Lemma one_minus_pow_cv_1 b : 0 < b < 1 → Un_cv (fun n => 1 - b ^ (n + 1)) 1.
Proof.
  intros Hb.
  enough (Un_cv (fun n => 1 - b ^ (n + 1)) (1 - 0)) as H
    by (by replace (1 - 0) with 1 in H by lra).
  apply (CV_minus (fun _ => 1) (fun n => b ^ (n + 1))).
  - apply Un_cv_const.
  - by apply pow_succ_cv_0.
Qed.

(** The step size tends to the learning rate. *)
Lemma stepSize_R_cv l b1 b2 :
  0 < b1 < 1 → 0 < b2 < 1 → Un_cv (stepSize_R l b1 b2) l.
Proof.
  intros H1 H2.
  apply (Un_cv_ext _ (fun n => (l * sqrt (1 - b2 ^ (n + 1))) * / (1 - b1 ^ (n + 1)))).
  { intros n. reflexivity. }
  enough (Un_cv (fun n => (l * sqrt (1 - b2 ^ (n + 1))) * / (1 - b1 ^ (n + 1)))
                (l * sqrt 1 * / 1)) as H
    by (by replace (l * sqrt 1 * / 1) with l in H by (rewrite sqrt_1; field)).
  apply (CV_mult (fun n => l * sqrt (1 - b2 ^ (n + 1))) (fun n => / (1 - b1 ^ (n + 1)))).
  - apply (CV_mult (fun _ => l) (fun n => sqrt (1 - b2 ^ (n + 1)))); [apply Un_cv_const|].
    apply (continuity_seq sqrt (fun n => 1 - b2 ^ (n + 1)) 1).
    + apply sqrt_continuity_pt. lra.
    + by apply one_minus_pow_cv_1.
  - apply (continuity_seq (fun x => / x) (fun n => 1 - b1 ^ (n + 1)) 1).
    + apply (continuity_pt_inv (fun x => x) 1); [|lra].
      apply derivable_continuous_pt, derivable_pt_id.
    + by apply one_minus_pow_cv_1.
Qed.

Lemma stepSize_Fin o l b1 b2 n :
  lr o = Fin l → beta1 o = Fin b1 → beta2 o = Fin b2 →
  0 < b1 < 1 → 0 < b2 < 1 →
  stepSize o n = Fin (stepSize_R l b1 b2 n).
Proof.
  intros Hl Hb1 Hb2 H1 H2.
  unfold stepSize, biasCorrection1, biasCorrection2, stepSize_R.
  rewrite Hl, Hb1, Hb2, !Math_pow_Fin, !jsub_Fin.
  pose proof (pow_succ_lt_1 b1 n H1). pose proof (pow_succ_lt_1 b2 n H2).
  rewrite jsqrt_Fin by lra.
  change (jmul (Fin l) (Fin ?x)) with (Fin (l * x)).
  by rewrite jdiv_Fin by lra.
Qed.

(** C4, amended.  For decay rates in (0,1), the step size of line 51 is
    the real number [lr * sqrt(1 - beta2^(step+1)) / (1 - beta1^(step+1))],
    which at [step = 0] is [lr * sqrt(1 - beta2) / (1 - beta1)] and which
    tends to [lr] as [step] grows. *)
Theorem stepSize_bias_correction o l b1 b2 :
  lr o = Fin l → beta1 o = Fin b1 → beta2 o = Fin b2 →
  0 < b1 < 1 → 0 < b2 < 1 →
  (∀ n, stepSize o n = Fin (stepSize_R l b1 b2 n)) ∧
  stepSize_R l b1 b2 0 = l * sqrt (1 - b2) / (1 - b1) ∧
  Un_cv (stepSize_R l b1 b2) l.
Proof.
  intros Hl Hb1 Hb2 H1 H2. split_and!.
  - intros n. by apply stepSize_Fin.
  - unfold stepSize_R. simpl. by rewrite !Rmult_1_r.
  - by apply stepSize_R_cv.
Qed.

Lemma stepSize_bias_correction_witness :
  (∀ n, stepSize (default_optimizer []) n = Fin (stepSize_R 0.1 0.95 0.98 n)) ∧
  stepSize_R 0.1 0.95 0.98 0 = 0.1 * sqrt (1 - 0.98) / (1 - 0.95) ∧
  Un_cv (stepSize_R 0.1 0.95 0.98) 0.1.
Proof.
  apply (stepSize_bias_correction (default_optimizer []) 0.1 0.95 0.98);
    [reflexivity | reflexivity | reflexivity | lra | lra].
Defined.

Lemma sqrt_ninth : sqrt (1 - (8 / 9) ^ (0 + 1)) = 1 / 3.
Proof. apply sqrt_lem_1; simpl; lra. Qed.

(** C4 as stated fails at [lr = 1], [beta1 = 1/2], [beta2 = 8/9]: the step
    size at [step = 0] is [2/3], not [lr * sqrt(1 - beta2) = 1/3]; at
    [step = 1] it is smaller than at [step = 0]; and it does not tend to
    [lr * sqrt(1 - beta2) / (1 - beta1) = 2/3] (it tends to [lr = 1]). *)
Lemma stepSize_decreases_at_first :
  stepSize optimizer_half_eight_ninths 0 = Fin (2 / 3) ∧
  2 / 3 ≠ 1 * sqrt (1 - 8 / 9) ∧
  (∃ x, stepSize optimizer_half_eight_ninths 1 = Fin x ∧ x < 2 / 3) ∧
  ¬ Un_cv (stepSize_R 1 (1 / 2) (8 / 9)) (1 * sqrt (1 - 8 / 9) / (1 - 1 / 2)).
Proof.
  assert (sqrt (1 - 8 / 9) = 1 / 3) as Hs by (apply sqrt_lem_1; lra).
  split_and!.
  - rewrite (stepSize_Fin _ 1 (1 / 2) (8 / 9)); try reflexivity; try lra.
    f_equal. unfold stepSize_R. rewrite sqrt_ninth. simpl. lra.
  - rewrite Hs. lra.
  - exists (stepSize_R 1 (1 / 2) (8 / 9) 1). split.
    + apply stepSize_Fin; try reflexivity; lra.
    + unfold stepSize_R. simpl.
      assert (sqrt (1 - 8 / 9 * (8 / 9 * 1)) < 1 / 2) as Hlt.
      { replace (1 / 2) with (sqrt (1 / 4)) by (apply sqrt_lem_1; lra).
        apply sqrt_lt_1; lra. }
      lra.
  - rewrite Hs. intros Hcv.
    assert (1 * (1 / 3) / (1 - 1 / 2) = 1) as Habs; [|lra].
    apply (UL_sequence (stepSize_R 1 (1 / 2) (8 / 9))); [done|].
    apply stepSize_R_cv; lra.
Qed.

End StepSize.

(** ** What [step] writes into [data] *)

(** Every completed update yields an all-[NaN] [m] and all-[NaN] data:
    line 46 adds the number [this.weightDecay * param.data], which is [NaN]
    for every tensor [param.data] and every [weightDecay]. *)
Lemma update_NaN o p s d s' :
  update o p s = Normal (d, s') → all_NaN d ∧ all_NaN (State.m s').
Proof.
  unfold update. destruct (grad p) as [g|]; [|done].
  intros H. inv_bind H. injection H as <- <-. simpl.
  rewrite weightDecay_term in E3.
  assert (all_NaN t3) as Hm.
  { eapply (broadcast_op_NaN_r jadd); [apply jadd_NaN_r | apply all_NaN_add_n_NaN | exact E3]. }
  split; [|done].
  eapply (broadcast_op_NaN_r jsub); [apply jsub_NaN_r | | exact E4].
  by apply all_NaN_mul_n.
Qed.

Lemma update_param_data_NaN r r' w :
  (∃ p, heap w !! r' = Some p ∧ all_NaN (data p)) →
  ∃ p, heap (update_param r w).1 !! r' = Some p ∧ all_NaN (data p).
Proof.
  intros (p & Hp & Hn). unfold update_param.
  destruct (states (this w) !! r) as [s|]; [|by exists p].
  destruct (heap w !! r) as [p0|] eqn:Hp0; [|by exists p].
  destruct (update (this w) p0 s) as [[d s']|] eqn:Hu; [|by exists p].
  simpl. rewrite lookup_alter. case_decide as Hr; [|by exists p]. subst r'.
  rewrite Hp0. simpl. eexists. split; [done|]. simpl.
  by apply update_NaN in Hu as [? _].
Qed.

Lemma forEach_update_data_NaN l w w' u :
  forEach update_param l w = (w', Normal u) →
  ∀ r, r ∈ l → ∃ p, heap w' !! r = Some p ∧ all_NaN (data p).
Proof.
  revert w. induction l as [|r0 l IH]; intros w H r Hr; [by apply elem_of_nil in Hr|].
  simpl in H. destruct (update_param r0 w) as [w1 [[]|e]] eqn:H0; [|done].
  apply elem_of_cons in Hr as [-> | Hr]; [|by eapply IH].
  replace w' with (forEach update_param l w1).1 by (by rewrite H).
  apply (forEach_inv (fun w2 => ∃ p, heap w2 !! r0 = Some p ∧ all_NaN (data p))).
  { intros r w2 _. apply update_param_data_NaN. }
  apply update_param_Normal in H0 as (p0 & s0 & d0 & s0' & _ & Hp0 & Hu0 & ->).
  simpl. rewrite lookup_alter, decide_True, Hp0 by done. simpl.
  eexists. split; [done|]. simpl. by apply update_NaN in Hu0 as [? _].
Qed.

(** Whenever [step] returns, the data of every managed parameter consists
    of [NaN] entries only. *)
Lemma step_Normal_data_NaN w r :
  (step w).2 = Normal tt → r ∈ params (this w) →
  ∃ p, heap (step w).1 !! r = Some p ∧ all_NaN (data p).
Proof.
  unfold step. destruct (init_pass w) as [w1 [[]|e]] eqn:H1; [|done].
  unfold update_pass.
  assert (params (this w1) = params (this w)) as ->.
  { unfold init_pass in H1. destruct (momentumInitialized (this w)).
    - by injection H1 as <-.
    - pose proof (forEach_inv (fun w' => params (this w') = params (this w))
        init_param (params (this w)) w) as Hi.
      destruct (forEach init_param (params (this w)) w) as [w' [[]|e']]; [|done].
      injection H1 as <-. simpl in *. apply Hi; [|done].
      intros r' w'' _ <-. apply init_param_config. }
  destruct (forEach update_param (params (this w)) w1) as [w2 c] eqn:HU.
  simpl. intros -> Hr. by eapply forEach_update_data_NaN.
Qed.

(** On a [ready] fresh optimizer whose list names no object twice, the
    first call returns and replaces the data of every managed parameter by
    the all-[NaN] tensor of its shape. *)
Lemma first_step_ready w r :
  momentumInitialized (this w) = false → NoDup (params (this w)) →
  state_inv w → ready w → r ∈ params (this w) →
  (step w).2 = Normal tt ∧
  ∃ p g s', heap w !! r = Some p ∧ grad p = Some g ∧
    heap (step w).1 !! r = Some (mkParam (NaN_tensor (shape g)) (Some g)) ∧
    states (this (step w).1) !! r = Some s' ∧
    State.m s' = NaN_tensor (shape g) ∧ State.step s' = 1.
Proof.
  intros Hb Hnd Hinv Hrdy Hr.
  destruct (step_returns w Hinv Hrdy) as [HN _]. split; [done|].
  destruct (first_step w Hb Hnd HN r Hr)
    as (p & g & s0 & d & s' & Hp & Hg & Hs0 & Hu & Hs' & Hd).
  destruct (Hrdy r Hr) as (p' & g' & Hp' & Hg' & Hsh & _).
  rewrite Hp in Hp'. injection Hp' as <-. rewrite Hg in Hg'. injection Hg' as <-.
  rewrite (init_state_eq _ _ _ Hg) in Hs0. injection Hs0 as <-.
  destruct (update_eq (this w) p (State.mk 0 (square (tf_norm g))
      (NaN_tensor (shape g)) None) g Hg)
    as (ge & ng & v' & _ & _ & _ & _ & _ & _ & Hu'); [apply is_scalar_square_norm | done |].
  rewrite Hu in Hu'. simpl in Hu'.
  rewrite broadcast_shape_same, <- Hsh, broadcast_shape_same in Hu'.
  injection Hu' as -> ->. rewrite Hg in Hd.
  exists p, g. eexists. split_and!; try done.
Qed.

(** C1: the usage example of the documentation.  One [step] call on
    [{ data: [1, 2, 3], grad: [0.1, 0.2, 0.3] }] with the default options
    returns and leaves [data = [NaN, NaN, NaN]] and [m = [NaN, NaN, NaN]];
    no list of real numbers is the new data. *)
Theorem readme_example_data_NaN :
  let w := mkWorld {[0 := param1]} (default_optimizer [0]) in
  (step w).2 = Normal tt ∧
  heap w !! 0 = Some (mkParam (vector [1; 2; 3]%R) (Some (vector [0.1; 0.2; 0.3]%R))) ∧
  heap (step w).1 !! 0 =
    Some (mkParam (mkTensor [3] [NaN; NaN; NaN]) (Some (vector [0.1; 0.2; 0.3]%R))) ∧
  State.m <$> states (this (step w).1) !! 0 = Some (mkTensor [3] [NaN; NaN; NaN]) ∧
  ∀ l : list R, [NaN; NaN; NaN] ≠ map Fin l.
Proof.
  cbn zeta.
  destruct (first_step_ready (mkWorld {[0 := param1]} (default_optimizer [0])) 0)
    as (HN & p & g & s' & Hp & Hg & Hd & Hs' & Hm & _).
  - reflexivity.
  - apply NoDup_singleton.
  - by apply fresh_state_inv.
  - intros r Hr. apply list_elem_of_singleton in Hr as ->.
    exists param1, (vector [0.1; 0.2; 0.3]%R). split_and!; reflexivity.
  - apply list_elem_of_singleton. reflexivity.
  - assert (p = param1) as -> by (by injection Hp).
    assert (g = vector [0.1; 0.2; 0.3]%R) as -> by (by injection Hg).
    split_and!; [done | reflexivity | exact Hd | |].
    + rewrite Hs'. cbn [fmap option_fmap option_map]. rewrite Hm. reflexivity.
    + intros [|x l]; discriminate.
Qed.

(** C5: an all-zero gradient with [weightDecay = 0] (the default).  One
    [step] call on [{ data: [1, 2, 3], grad: [0, 0, 0] }] returns and
    leaves [data = [NaN, NaN, NaN]]: the data does not stay as it was. *)
Theorem zero_gradient_data_NaN :
  let w := mkWorld {[0 := param_zero_grad]} (default_optimizer [0]) in
  weightDecay (this w) = Fin 0 ∧
  (step w).2 = Normal tt ∧
  heap w !! 0 = Some (mkParam (vector [1; 2; 3]%R) (Some (vector [0; 0; 0]%R))) ∧
  heap (step w).1 !! 0 =
    Some (mkParam (mkTensor [3] [NaN; NaN; NaN]) (Some (vector [0; 0; 0]%R))).
Proof.
  cbn zeta.
  destruct (first_step_ready (mkWorld {[0 := param_zero_grad]} (default_optimizer [0])) 0)
    as (HN & p & g & s' & Hp & Hg & Hd & _).
  - reflexivity.
  - apply NoDup_singleton.
  - by apply fresh_state_inv.
  - intros r Hr. apply list_elem_of_singleton in Hr as ->.
    exists param_zero_grad, (vector [0; 0; 0]%R). split_and!; reflexivity.
  - apply list_elem_of_singleton. reflexivity.
  - assert (p = param_zero_grad) as -> by (by injection Hp).
    assert (g = vector [0; 0; 0]%R) as -> by (by injection Hg).
    split_and!; [reflexivity | done | reflexivity | exact Hd].
Qed.

(** ** The first moment and the record of the one-time pass *)

(** The result of an update does not depend on the entries of the stored
    [m], only on its shape: line 46 adds the number
    [this.weightDecay * param.data], which is [NaN], to every entry. *)
Lemma update_ignores_m_entries o p s m' :
  is_scalar (State.v s) → (∀ e, State.gradEMA s = Some e → is_scalar e) →
  shape m' = shape (State.m s) →
  update o p (State.mk (State.step s) (State.v s) m' (State.gradEMA s)) = update o p s.
Proof.
  intros Hv He Hm. destruct (grad p) as [g|] eqn:Hg.
  - destruct (update_eq o p s g Hg Hv He)
      as (ge & ng & v' & Hge & _ & Hng & _ & Hv' & _ & ->).
    destruct (update_eq o p (State.mk (State.step s) (State.v s) m' (State.gradEMA s))
                g Hg Hv He)
      as (ge2 & ng2 & v2 & Hge2 & _ & Hng2 & _ & Hv2 & _ & ->).
    simpl in *. rewrite Hge in Hge2. injection Hge2 as <-.
    rewrite Hng in Hng2. injection Hng2 as <-.
    rewrite Hv' in Hv2. injection Hv2 as <-. by rewrite Hm.
  - unfold update. by rewrite Hg.
Qed.

(** C9 fails for the code, at the usage example of the documentation with
    one parameter.  The one-time pass stores [v0 = norm(grad)^2] and, as
    [m0], the all-[NaN] tensor, not [grad / (sqrt(v0) + eps) + weightDecay *
    data].  The first call returns; the record it leaves has an all-[NaN]
    [m], and the update gives the same result whatever tensor of three
    entries is stored as [m0]: the stored [m0] contributes no number.  The
    other half of the claim holds: the update reads the stored [v0], the
    first persisted [v] is [v0 * beta2 + norm(normalizedGrad)^2 * (1 -
    beta2)], and [gradEMA] is the squared norm of the gradient. *)
Theorem readme_example_first_moment_NaN :
  let o := default_optimizer [0] in
  let w := mkWorld {[0 := param1]} o in
  let g := [Fin 0.1; Fin 0.2; Fin 0.3]%R in
  ∃ s0 s' d,
    init_state o param1 = Normal s0 ∧
    State.v s0 = tf_scalar (squared_norm g) ∧
    State.m s0 = NaN_tensor [3] ∧
    (step w).2 = Normal tt ∧
    states (this (step w).1) !! 0 = Some s' ∧
    update o param1 s0 = Normal (d, s') ∧
    State.m s' = NaN_tensor [3] ∧
    (∀ m0', shape m0' = [3] →
       update o param1 (State.mk 0 (State.v s0) m0' None) = Normal (d, s')) ∧
    State.gradEMA s' = Some (tf_scalar (squared_norm g)) ∧
    scalar_val (State.v s') =
      jadd (jmul (squared_norm g) (Fin 0.98))
           (jmul (squared_norm (map (normalized_entry o (squared_norm g)) g))
                 (jsub (Fin 1) (Fin 0.98))).
Proof.
  cbn zeta.
  set (o := default_optimizer [0]). set (w := mkWorld {[0 := param1]} o).
  set (gv := vector [0.1; 0.2; 0.3]%R).
  assert (0 ∈ params (this w)) as Hin by (apply list_elem_of_singleton; reflexivity).
  destruct (first_step_ready w 0 eq_refl (NoDup_singleton 0))
    as (HN & p & g & s' & Hp & Hg & _ & Hs' & Hm & _);
    [by apply fresh_state_inv | | exact Hin |].
  { intros r Hr. apply list_elem_of_singleton in Hr as ->.
    exists param1, gv. split_and!; reflexivity. }
  assert (Some param1 = Some p) as [= <-] by (rewrite <- Hp; reflexivity).
  assert (Some gv = Some g) as [= <-] by (rewrite <- Hg; reflexivity).
  destruct (first_step w eq_refl (NoDup_singleton 0) HN 0 Hin)
    as (p & g & s0 & d & s2 & Hp2 & Hg2 & Hs0 & Hu & Hs2 & _).
  assert (Some param1 = Some p) as [= <-] by (rewrite <- Hp2; reflexivity).
  assert (Some gv = Some g) as [= <-] by (rewrite <- Hg2; reflexivity).
  rewrite Hs' in Hs2. injection Hs2 as <-.
  change (this w) with o in Hu, Hs0.
  pose proof Hs0 as Hs0'. rewrite (init_state_eq o param1 gv eq_refl) in Hs0'.
  injection Hs0' as <-.
  lazymatch type of Hu with update _ _ ?s = _ => set (s0 := s) in * end.
  assert (is_scalar (State.v s0)) as Hv0 by apply is_scalar_square_norm.
  assert (∀ e, State.gradEMA s0 = Some e → is_scalar e) as He0 by (by intros e).
  exists s0, s', d.
  destruct (update_values o param1 s0 d s' Hv0 He0 Hu)
    as (g & ge & ng & Hg3 & _ & Hge & Hges & _ & Hgev & Hng & Hv).
  assert (Some gv = Some g) as [= <-] by (rewrite <- Hg3; reflexivity).
  destruct (normalized_grad_values o gv ge ng) as [_ Hngv]; [reflexivity | done | done |].
  assert (ge = tf_scalar (squared_norm (values gv))) as ->.
  { destruct ge as [sh vs]. destruct Hges as [Hsh Hl]. simpl in *. subst sh.
    destruct vs as [|y [|? ?]]; try done. unfold scalar_val in Hgev. simpl in Hgev.
    by rewrite Hgev. }
  split_and!; try done.
  - intros m0' Hm0. rewrite <- Hu.
    by apply (update_ignores_m_entries o param1 s0 m0').
  - rewrite Hv, Hngv. reflexivity.
Qed.

(** ** The tensor model: sanity of the broadcasting formula *)

(** An operation with a number argument is the broadcast of the rank-0
    tensor of that number. *)
Lemma add_n_broadcast t c : well_formed t → add t (tf_scalar c) = Normal (add_n t c).
Proof. intros Ht. unfold add. by rewrite broadcast_op_scalar_values. Qed.

Lemma map_nth_seq2 {A B C} (f : A → B → C) (la : list A) (lb : list B) da db :
  length la = length lb →
  map (fun i => f (nth i la da) (nth i lb db)) (seq 0 (length la)) = zip_with f la lb.
Proof.
  revert lb. induction la as [|x la IH]; intros [|y lb] Hl; try done.
  simpl. f_equal. rewrite <- seq_shift, map_map. apply IH. by injection Hl.
Qed.

(** Between two well-formed tensors of one shape an operation acts entry by
    entry. *)
Lemma broadcast_op_same_shape f a b :
  well_formed a → well_formed b → shape a = shape b →
  broadcast_op f a b = Normal (mkTensor (shape a) (zip_with f (values a) (values b))).
Proof.
  intros Ha Hb Hs. unfold broadcast_op. rewrite <- Hs, broadcast_shape_same.
  do 2 f_equal. unfold well_formed in *. rewrite <- Hs in Hb.
  rewrite <- (map_nth_seq2 f _ _ NaN NaN) by congruence. rewrite Ha.
  apply map_ext_in. intros i Hi. apply in_seq in Hi.
  by rewrite src_index_same by (rewrite size_of_rev; lia).
Qed.

(** ** Further properties of [step] *)

(** X2.  Whenever a [step] call returns, the data of every managed
    parameter consists of [NaN] entries only, whatever the options, the
    gradients and the data were: the number [this.weightDecay * param.data]
    of lines 22 and 46 is [NaN]. *)
Theorem step_leaves_data_NaN w r :
  (step w).2 = Normal tt → r ∈ params (this w) →
  ∃ p, heap (step w).1 !! r = Some p ∧ all_NaN (data p).
Proof. apply step_Normal_data_NaN. Qed.

Lemma step_leaves_data_NaN_witness :
  let w := mkWorld {[0 := param1; 1 := param2]} (default_optimizer [0; 1]) in
  (step w).2 = Normal tt ∧
  ∃ p, heap (step w).1 !! 1 = Some p ∧ all_NaN (data p).
Proof.
  cbn zeta.
  assert ((step (mkWorld {[0 := param1; 1 := param2]} (default_optimizer [0; 1]))).2
          = Normal tt) as HN.
  { apply step_returns.
    - by apply fresh_state_inv.
    - intros r Hr. simpl in Hr. apply elem_of_cons in Hr as [-> | Hr].
      + exists param1, (vector [0.1; 0.2; 0.3]%R). split_and!; reflexivity.
      + apply list_elem_of_singleton in Hr as ->.
        exists param2, (vector [0.4; 0.5; 0.6]%R). split_and!; reflexivity. }
  split; [exact HN|].
  apply (step_leaves_data_NaN
           (mkWorld {[0 := param1; 1 := param2]} (default_optimizer [0; 1])) 1 HN).
  simpl. apply elem_of_cons. right. apply list_elem_of_singleton. reflexivity.
Defined.

(** X3.  When every managed parameter has its gradient set, of the shape
    of its data (and, once initialised, a record whose [m] has that shape),
    a [step] call returns normally, and the world is again such. *)
Theorem step_returns_when_ready w :
  state_inv w → ready w →
  (step w).2 = Normal tt ∧ state_inv (step w).1 ∧ ready (step w).1.
Proof.
  intros Hi Hr. destruct (step_returns w Hi Hr) as [HN Hr'].
  split_and!; [done | by apply step_state_inv | done].
Qed.

Lemma step_returns_when_ready_witness :
  let w := mkWorld {[0 := param1; 1 := param2]} (default_optimizer [0; 1]) in
  state_inv w ∧ ready w ∧
  (step w).2 = Normal tt ∧ state_inv (step w).1 ∧ ready (step w).1.
Proof.
  cbn zeta.
  assert (state_inv (mkWorld {[0 := param1; 1 := param2]} (default_optimizer [0; 1])))
    as Hi by (by apply fresh_state_inv).
  assert (ready (mkWorld {[0 := param1; 1 := param2]} (default_optimizer [0; 1]))) as Hr.
  { intros r Hr. simpl in Hr. apply elem_of_cons in Hr as [-> | Hr].
    - exists param1, (vector [0.1; 0.2; 0.3]%R). split_and!; reflexivity.
    - apply list_elem_of_singleton in Hr as ->.
      exists param2, (vector [0.4; 0.5; 0.6]%R). split_and!; reflexivity. }
  split; [exact Hi|]. split; [exact Hr|].
  exact (step_returns_when_ready _ Hi Hr).
Defined.

(** * Further properties of the constructor and of [step] *)

(** ** The empty parameter list *)

(** X4.  With an empty parameter list, [step] returns at once: it sets the
    flag and touches neither the store nor the state map. *)
Theorem step_empty_parameter_list w :
  params (this w) = [] →
  (step w).2 = Normal tt ∧ heap (step w).1 = heap w ∧
  states (this (step w).1) = states (this w) ∧
  momentumInitialized (this (step w).1) = true.
Proof.
  intros Hps. unfold step, init_pass, update_pass. rewrite Hps.
  destruct (momentumInitialized (this w)) eqn:Hb; simpl.
  - by rewrite Hps.
  - by rewrite Hps.
Qed.

Lemma step_empty_parameter_list_witness :
  let w := mkWorld {[0 := param1]} (default_optimizer []) in
  (step w).2 = Normal tt ∧ heap (step w).1 = heap w ∧
  states (this (step w).1) = states (this w) ∧
  momentumInitialized (this (step w).1) = true.
Proof.
  cbn zeta.
  apply (step_empty_parameter_list (mkWorld {[0 := param1]} (default_optimizer []))).
  reflexivity.
Defined.

(** ** Repeated calls *)

Lemma step_params w : params (this (step w).1) = params (this w).
Proof.
  apply (step_inv (fun w' => params (this w') = params (this w))).
  - intros r w' _ Hc _ _. rewrite <- (proj2 (proj2 (proj2 (proj2 (proj2 (proj2 Hc)))))).
    apply init_param_config.
  - intros w' _ H. exact H.
  - intros r w' _ Hc _ _. rewrite <- (proj2 (proj2 (proj2 (proj2 (proj2 (proj2 Hc)))))).
    apply update_param_config.
  - done.
Qed.

(** A returning call on an initialised optimizer advances the step count of
    a record by the number of occurrences of its parameter in the list. *)
Lemma step_count_initialized w :
  momentumInitialized (this w) = true → (step w).2 = Normal tt →
  ∀ r s, states (this w) !! r = Some s →
    ∃ s', states (this (step w).1) !! r = Some s' ∧
          State.step s' = State.step s + count_occ Nat.eq_dec (params (this w)) r.
Proof.
  intros Hb. unfold step, init_pass. rewrite Hb. unfold update_pass.
  destruct (forEach update_param (params (this w)) w) as [w' c] eqn:HU.
  simpl. intros -> r s Hs. by eapply forEach_update_count.
Qed.

Lemma step_keeps_data_NaN w r :
  (∃ p, heap w !! r = Some p ∧ all_NaN (data p)) →
  ∃ p, heap (step w).1 !! r = Some p ∧ all_NaN (data p).
Proof.
  apply (step_inv (fun w' => ∃ p, heap w' !! r = Some p ∧ all_NaN (data p))).
  - intros r0 w' _ _ _. by rewrite init_param_heap.
  - intros w' _ H. exact H.
  - intros r0 w' _ _ _. apply update_param_data_NaN.
Qed.

Lemma run_calls_S n w : run (calls (S n)) w = run (calls n) (step w).1.
Proof. reflexivity. Qed.

Lemma calls_initialized n w :
  momentumInitialized (this w) = true → state_inv w → ready w →
  (step (run (calls n) w)).2 = Normal tt ∧
  params (this (run (calls n) w)) = params (this w) ∧
  (∀ r s, states (this w) !! r = Some s →
     ∃ s', states (this (run (calls n) w)) !! r = Some s' ∧
           State.step s' = State.step s + n * count_occ Nat.eq_dec (params (this w)) r) ∧
  (∀ r, (∃ p, heap w !! r = Some p ∧ all_NaN (data p)) →
        ∃ p, heap (run (calls n) w) !! r = Some p ∧ all_NaN (data p)).
Proof.
  revert w. induction n as [|n IH]; intros w Hb Hi Hr.
  - simpl. destruct (step_returns w Hi Hr) as [HN _].
    split_and!; try done. intros r s Hs. exists s. split; [done | lia].
  - rewrite run_calls_S.
    destruct (step_returns w Hi Hr) as [HN Hr1].
    pose proof (step_Normal_flag w HN) as Hb1.
    pose proof (step_state_inv w Hi) as Hi1.
    destruct (IH _ Hb1 Hi1 Hr1) as (HN' & Hps & Hcnt & Hnan).
    rewrite step_params in Hps, Hcnt.
    split_and!; try done.
    + intros r s Hs.
      destruct (step_count_initialized w Hb HN r s Hs) as (s1 & Hs1 & Hc1).
      destruct (Hcnt r s1 Hs1) as (s' & Hs' & Hc').
      exists s'. split; [done | lia].
    + intros r H. by apply Hnan, step_keeps_data_NaN.
Qed.

(** X5.  The loop of the usage example.  On a fresh optimizer whose
    parameters all have a gradient of the shape of their data, with the
    gradients left in place between calls, every one of any number of
    consecutive [step] calls returns; after [n+1] calls the record of a
    parameter has [step = (n+1) * k], where [k] is the number of times the
    parameter occurs in the list ([k = 1] when it is listed once), and its
    data is all [NaN]. *)
Theorem repeated_calls w n :
  momentumInitialized (this w) = false → state_inv w → ready w →
  (step (run (calls n) w)).2 = Normal tt ∧
  ∀ r, r ∈ params (this w) →
    ∃ s p, states (this (run (calls (S n)) w)) !! r = Some s ∧
      State.step s = S n * count_occ Nat.eq_dec (params (this w)) r ∧
      heap (run (calls (S n)) w) !! r = Some p ∧ all_NaN (data p).
Proof.
  intros Hb Hi Hr.
  destruct (step_returns w Hi Hr) as [HN Hr1].
  pose proof (step_Normal_flag w HN) as Hb1.
  pose proof (step_state_inv w Hi) as Hi1.
  split.
  - destruct n as [|n]; [done|]. rewrite run_calls_S.
    by destruct (calls_initialized n _ Hb1 Hi1 Hr1) as (? & _).
  - intros r Hin. rewrite run_calls_S.
    destruct (calls_initialized n _ Hb1 Hi1 Hr1) as (_ & _ & Hcnt & Hnan).
    rewrite step_params in Hcnt.
    destruct (first_step_count w Hb HN r Hin) as (s1 & Hs1 & Hc1).
    destruct (Hcnt r s1 Hs1) as (s' & Hs' & Hc').
    destruct (Hnan r) as (p & Hp & Hd); [by apply step_Normal_data_NaN|].
    exists s', p. split_and!; try done. lia.
Qed.

Lemma repeated_calls_witness :
  let w := mkWorld {[0 := param1; 1 := param2]} (default_optimizer [0; 1]) in
  (step (run (calls 9) w)).2 = Normal tt ∧
  ∀ r, r ∈ params (this w) →
    ∃ s p, states (this (run (calls 10) w)) !! r = Some s ∧
      State.step s = 10 * count_occ Nat.eq_dec (params (this w)) r ∧
      heap (run (calls 10) w) !! r = Some p ∧ all_NaN (data p).
Proof.
  cbn zeta.
  apply (repeated_calls (mkWorld {[0 := param1; 1 := param2]} (default_optimizer [0; 1])) 9).
  - reflexivity.
  - by apply fresh_state_inv.
  - intros r Hr. simpl in Hr. apply elem_of_cons in Hr as [-> | Hr].
    + exists param1, (vector [0.1; 0.2; 0.3]%R). split_and!; reflexivity.
    + apply list_elem_of_singleton in Hr as ->.
      exists param2, (vector [0.4; 0.5; 0.6]%R). split_and!; reflexivity.
Defined.

(** ** A parameter that joins the list after the one-time pass *)

(** The update loop creates no record. *)
Lemma forEach_update_no_record l w r :
  states (this w) !! r = None → states (this (forEach update_param l w).1) !! r = None.
Proof.
  intros Hs. apply (forEach_inv (fun w' => states (this w') !! r = None)); [|done].
  intros r' w' _ Hs'.
  destruct (update_param_states r' w') as [-> | (p & s & d & s' & Hs0 & _ & _ & ->)];
    [done|].
  rewrite lookup_insert_ne; [done|]. intros ->. congruence.
Qed.

(** X6.  Once the flag is set the one-time pass never runs again, so a
    listed parameter that has no record (one pushed onto the caller's array
    after the first call) never gets one: every call throws, the flag stays
    set and the parameter stays without a record.  The error is the
    [TypeError] of destructuring [undefined] (line 31) whenever the loop
    reaches the parameter, that is, when the entries before it are updated
    without error; an earlier entry may throw first, with its own error.
    When the parameter is the first entry of the list, the call changes
    nothing. *)
Theorem parameter_without_record w r :
  momentumInitialized (this w) = true → r ∈ params (this w) →
  states (this w) !! r = None →
  (∃ e, (step w).2 = Throw e) ∧
  momentumInitialized (this (step w).1) = true ∧
  states (this (step w).1) !! r = None ∧
  (∀ l1 l2, params (this w) = l1 ++ r :: l2 →
     (forEach update_param l1 w).2 = Normal tt →
     step w = ((forEach update_param l1 w).1, Throw TypeError)) ∧
  (∀ l, params (this w) = r :: l → step w = (w, Throw TypeError)).
Proof.
  intros Hb Hr Hs.
  destruct (step_initialized w Hb) as [Hb' Hk].
  assert (states (this (step w).1) !! r = None) as Hs'.
  { specialize (Hk r). rewrite Hs in Hk.
    by destruct (states (this (step w).1) !! r). }
  split_and!; try done.
  - destruct ((step w).2) as [[]|e] eqn:HN; [|by exists e].
    destruct (step_Normal_states w r HN Hr) as [s Hs'']. congruence.
  - intros l1 l2 Hl HN. unfold step, init_pass. rewrite Hb. unfold update_pass.
    rewrite Hl, forEach_app.
    pose proof (forEach_update_no_record l1 w r Hs) as Hs1.
    destruct (forEach update_param l1 w) as [w1 c]. simpl in HN, Hs1. subst c.
    cbn [forEach]. unfold update_param. by rewrite Hs1.
  - intros l Hl. unfold step, init_pass. rewrite Hb. unfold update_pass.
    rewrite Hl. simpl. unfold update_param. by rewrite Hs.
Qed.

Lemma parameter_without_record_witness :
  let w := mkWorld {[0 := param1]} optimizer_after_push in
  (∃ e, (step w).2 = Throw e) ∧
  momentumInitialized (this (step w).1) = true ∧
  states (this (step w).1) !! 0 = None ∧
  (∀ l1 l2, params (this w) = l1 ++ 0 :: l2 →
     (forEach update_param l1 w).2 = Normal tt →
     step w = ((forEach update_param l1 w).1, Throw TypeError)) ∧
  (∀ l, params (this w) = 0 :: l → step w = (w, Throw TypeError)).
Proof.
  cbn zeta.
  apply (parameter_without_record (mkWorld {[0 := param1]} optimizer_after_push) 0).
  - reflexivity.
  - apply list_elem_of_singleton. reflexivity.
  - reflexivity.
Defined.

(** ** The order of the parameter list *)

Lemma update_Normal_grad o p s d s' :
  update o p s = Normal (d, s') → ∃ g, grad p = Some g.
Proof. unfold update. destruct (grad p) as [g|]; [eauto | done]. Qed.

(** The pre-state of the update loop: the world after the one-time pass. *)
Lemma init_pass_Normal_char w w1 :
  init_pass w = (w1, Normal tt) →
  heap w1 = heap w ∧ same_config (this w) (this w1) ∧
  momentumInitialized (this w1) = true ∧
  (∀ r, r ∈ params (this w) →
     momentumInitialized (this w) = true ∨
     ∃ p g, heap w !! r = Some p ∧ grad p = Some g ∧
            states (this w1) !! r = Some (initial_record g)) ∧
  (∀ r, momentumInitialized (this w) = true ∨ r ∉ params (this w) →
     states (this w1) !! r = states (this w) !! r).
Proof.
  unfold init_pass. destruct (momentumInitialized (this w)) eqn:Hb.
  - intros [= <-]. split_and!; try done; try apply same_config_refl.
    intros; by left.
  - destruct (forEach init_param (params (this w)) w) as [w' [[]|e]] eqn:HI; [|done].
    intros [= <-]. apply forEach_init_Normal in HI as (Hh & Hc & _ & Hin & Hout).
    split_and!; try done.
    + intros r Hr. right. destruct (Hin r Hr) as (p & s & Hp & Hs & Hst).
      destruct (grad p) as [g|] eqn:Hg;
        [|unfold init_state in Hs; by rewrite Hg in Hs].
      rewrite (init_state_eq _ _ _ Hg) in Hs. injection Hs as <-.
      by exists p, g.
    + intros r [?|Hr]; [done|]. by apply Hout.
Qed.

(** What a returning call has done, for a list without repetition: every
    listed parameter has been updated once, from its own object and its own
    prior record; nothing else has changed. *)
Lemma step_NoDup_Normal w :
  NoDup (params (this w)) → (step w).2 = Normal tt →
  (∀ r, r ∈ params (this w) →
     ∃ p g s d s', heap w !! r = Some p ∧ grad p = Some g ∧
       prior_record w r g = Some s ∧ update (this w) p s = Normal (d, s') ∧
       states (this (step w).1) !! r = Some s' ∧
       heap (step w).1 !! r = Some (mkParam d (Some g))) ∧
  (∀ r, r ∉ params (this w) →
     heap (step w).1 !! r = heap w !! r ∧
     states (this (step w).1) !! r = states (this w) !! r).
Proof.
  intros Hnd. unfold step.
  destruct (init_pass w) as [w1 [[]|e]] eqn:H1; [|done].
  apply init_pass_Normal_char in H1 as (Hh & Hc & Hb1 & Hin & Hout).
  unfold update_pass.
  assert (params (this w1) = params (this w)) as -> by apply Hc.
  destruct (forEach update_param (params (this w)) w1) as [w2 c] eqn:HU.
  simpl. intros ->. apply forEach_update_NoDup in HU as (_ & Hup & Hfr); [|done].
  split.
  - intros r Hr.
    destruct (Hup r Hr) as (p & s & d & s' & Hp & Hs & Hu & Hs' & Hd).
    rewrite (update_config (this w)) in Hu by done.
    destruct (update_Normal_grad _ _ _ _ _ Hu) as [g Hg].
    exists p, g, s, d, s'. rewrite Hh in Hp. rewrite Hg in Hd.
    split_and!; try done.
    unfold prior_record. destruct (Hin r Hr) as [Hb|(p' & g' & Hp' & Hg' & Hst)].
    + rewrite Hb. rewrite <- Hs. symmetry. apply Hout. by left.
    + destruct (momentumInitialized (this w)) eqn:Hb.
      * rewrite <- Hs. symmetry. apply Hout. by left.
      * rewrite Hp in Hp'. injection Hp' as <-. rewrite Hg in Hg'. injection Hg' as <-.
        congruence.
  - intros r Hr. destruct (Hfr r Hr) as [Hfh Hfs]. rewrite Hfh, Hfs, Hh.
    split; [done|]. apply Hout. by right.
Qed.

Lemma forEach_update_progress l w :
  NoDup l →
  (∀ r, r ∈ l → ∃ p s d s', heap w !! r = Some p ∧ states (this w) !! r = Some s ∧
                             update (this w) p s = Normal (d, s')) →
  (forEach update_param l w).2 = Normal tt.
Proof.
  intros Hnd. revert w. induction Hnd as [|r0 l Hr0 Hnd IH]; intros w H; [done|].
  simpl. destruct (H r0) as (p0 & s0 & d0 & s0' & Hp0 & Hs0 & Hu0); [by left|].
  unfold update_param at 1. rewrite Hs0, Hp0, Hu0.
  apply IH. intros r Hr. assert (r0 ≠ r) as Hne by (intros ->; done).
  destruct (H r) as (p & s & d & s' & Hp & Hs & Hu); [by right|].
  exists p, s, d, s'. simpl.
  rewrite lookup_alter, decide_False by done. rewrite lookup_insert_ne by done.
  done.
Qed.

(** The converse: a call returns when every listed parameter has an object
    with a gradient and a prior record on which the update completes. *)
Lemma step_NoDup_progress w :
  NoDup (params (this w)) →
  (∀ r, r ∈ params (this w) →
     ∃ p g s d s', heap w !! r = Some p ∧ grad p = Some g ∧
       prior_record w r g = Some s ∧ update (this w) p s = Normal (d, s')) →
  (step w).2 = Normal tt.
Proof.
  intros Hnd H.
  assert (∃ w1, init_pass w = (w1, Normal tt)) as [w1 H1].
  { unfold init_pass. destruct (momentumInitialized (this w)); [by eexists|].
    destruct (forEach_Normal (fun w' => heap w' = heap w) init_param
                (params (this w)) w) as [HN _]; [|done|].
    - intros r w' Hr Hh. destruct (H r Hr) as (p & g & _ & _ & _ & Hp & Hg & _).
      split; [|by rewrite init_param_heap].
      unfold init_param. by rewrite Hh, Hp, (init_state_eq _ _ _ Hg).
    - destruct (forEach init_param (params (this w)) w) as [w' c]. simpl in HN.
      subst c. by eexists. }
  unfold step. rewrite H1. unfold update_pass.
  apply init_pass_Normal_char in H1 as (Hh & Hc & Hb1 & Hin & Hout).
  assert (params (this w1) = params (this w)) as -> by apply Hc.
  apply forEach_update_progress; [done|]. intros r Hr.
  destruct (H r Hr) as (p & g & s & d & s' & Hp & Hg & Hpr & Hu).
  exists p, s, d, s'. rewrite Hh, (update_config (this w)) by done.
  split_and!; try done.
  unfold prior_record in Hpr. destruct (Hin r Hr) as [Hb|(p' & g' & Hp' & Hg' & Hst)].
  - rewrite Hb in Hpr. rewrite <- Hpr. apply Hout. by left.
  - destruct (momentumInitialized (this w)) eqn:Hb.
    + rewrite <- Hpr. apply Hout. by left.
    + rewrite Hp in Hp'. injection Hp' as <-. rewrite Hg in Hg'. injection Hg' as <-.
      congruence.
Qed.

(** X7.  The order of the parameter list does not matter to a call that
    returns.  For a list [l] without repetition and any reordering [l'] of
    it: if [step] returns with the list [l], it returns with the list [l']
    too, with the same store and the same state map afterwards.  No update
    reads the object or the record of another parameter. *)
Theorem parameter_order_irrelevant h o l l' :
  NoDup l → l ≡ₚ l' →
  (step (mkWorld h (with_params l o))).2 = Normal tt →
  (step (mkWorld h (with_params l' o))).2 = Normal tt ∧
  heap (step (mkWorld h (with_params l' o))).1 = heap (step (mkWorld h (with_params l o))).1 ∧
  states (this (step (mkWorld h (with_params l' o))).1)
    = states (this (step (mkWorld h (with_params l o))).1).
Proof.
  intros Hnd Hperm HN.
  assert (NoDup l') as Hnd' by (by rewrite <- Hperm).
  destruct (step_NoDup_Normal (mkWorld h (with_params l o)) Hnd HN) as [Hin Hout].
  assert ((step (mkWorld h (with_params l' o))).2 = Normal tt) as HN'.
  { apply step_NoDup_progress; [done|]. intros r Hr. simpl in Hr.
    rewrite <- Hperm in Hr.
    destruct (Hin r Hr) as (p & g & s & d & s' & Hp & Hg & Hpr & Hu & _).
    by exists p, g, s, d, s'. }
  destruct (step_NoDup_Normal (mkWorld h (with_params l' o)) Hnd' HN') as [Hin' Hout'].
  split; [done|].
  assert (∀ r,
    heap (step (mkWorld h (with_params l' o))).1 !! r
      = heap (step (mkWorld h (with_params l o))).1 !! r ∧
    states (this (step (mkWorld h (with_params l' o))).1) !! r
      = states (this (step (mkWorld h (with_params l o))).1) !! r) as Heq.
  { intros r. destruct (decide (r ∈ l)) as [Hr|Hr].
    - assert (r ∈ l') as Hr' by (by rewrite <- Hperm).
      destruct (Hin r Hr) as (p & g & s & d & s' & Hp & Hg & Hpr & Hu & Hs & Hd).
      destruct (Hin' r Hr') as (p' & g' & s2 & d2 & s2' & Hp' & Hg' & Hpr' & Hu' & Hs' & Hd').
      simpl in Hp, Hp'. rewrite Hp in Hp'. injection Hp' as <-.
      rewrite Hg in Hg'. injection Hg' as <-.
      change (prior_record (mkWorld h (with_params l' o)) r g)
        with (prior_record (mkWorld h (with_params l o)) r g) in Hpr'.
      rewrite Hpr in Hpr'. injection Hpr' as <-.
      change (update (this (mkWorld h (with_params l' o))) p s)
        with (update (this (mkWorld h (with_params l o))) p s) in Hu'.
      rewrite Hu in Hu'. injection Hu' as <- <-.
      by rewrite Hs, Hs', Hd, Hd'.
    - assert (r ∉ l') as Hr' by (by rewrite <- Hperm).
      destruct (Hout r Hr) as [-> ->]. destruct (Hout' r Hr') as [-> ->]. done. }
  split; apply map_eq; intros r; apply Heq.
Qed.

Lemma parameter_order_irrelevant_witness :
  let h : gmap ref Param := {[0 := param1; 1 := param2]} in
  let o := default_optimizer [] in
  (step (mkWorld h (with_params [1; 0] o))).2 = Normal tt ∧
  heap (step (mkWorld h (with_params [1; 0] o))).1
    = heap (step (mkWorld h (with_params [0; 1] o))).1 ∧
  states (this (step (mkWorld h (with_params [1; 0] o))).1)
    = states (this (step (mkWorld h (with_params [0; 1] o))).1).
Proof.
  cbn zeta.
  apply (parameter_order_irrelevant {[0 := param1; 1 := param2]} (default_optimizer [])
           [0; 1] [1; 0]).
  - apply NoDup_cons. split; [|apply NoDup_singleton].
    intros H. apply list_elem_of_singleton in H. discriminate H.
  - apply Permutation_swap.
  - apply step_returns.
    + by apply fresh_state_inv.
    + intros r Hr. simpl in Hr. apply elem_of_cons in Hr as [-> | Hr].
      * exists param1, (vector [0.1; 0.2; 0.3]%R). split_and!; reflexivity.
      * apply list_elem_of_singleton in Hr as ->.
        exists param2, (vector [0.4; 0.5; 0.6]%R). split_and!; reflexivity.
Defined.

(** ** Bounds of the step size (lines 48-51) *)

Section StepSizeBounds.
Local Open Scope R_scope.






End StepSizeBounds.

(** ** The state map after a call that throws *)

(** X11.  A call that throws leaves the step counters apart.  On an
    initialised optimizer whose list has no repetition, a call that throws
    has thrown at some list entry [r]: the record of every entry before [r]
    has had its counter advanced by one, and every other record, that of [r]
    and of the entries after it included, is as it was.  No call undoes
    this, so the bias corrections of the parameters differ from then on. *)
Theorem throwing_call_counters w e :
  momentumInitialized (this w) = true → NoDup (params (this w)) →
  (step w).2 = Throw e →
  ∃ l1 r l2, params (this w) = l1 ++ r :: l2 ∧
    (∀ x, x ∈ l1 → ∃ s s', states (this w) !! x = Some s ∧
                            states (this (step w).1) !! x = Some s' ∧
                            State.step s' = State.step s + 1) ∧
    (∀ x, x ∉ l1 → states (this (step w).1) !! x = states (this w) !! x).
Proof.
  intros Hb Hnd. unfold step, init_pass. rewrite Hb. unfold update_pass.
  destruct (forEach update_param (params (this w)) w) as [w' c] eqn:HU.
  simpl. intros ->.
  apply forEach_Throw in HU as (l1 & r & l2 & w2 & Hl & H1 & H2 & Hr).
  pose proof (update_param_Throw _ _ _ _ Hr) as ->.
  exists l1, r, l2. split; [done|].
  rewrite Hl in Hnd. apply NoDup_app in Hnd as (Hnd1 & _ & _).
  destruct (forEach update_param l1 w) as [w2' c1] eqn:H3. simpl in H1, H2. subst.
  apply forEach_update_NoDup in H3 as (_ & Hin & Hout); [|done].
  split.
  - intros x Hx. destruct (Hin x Hx) as (p & s & d & s' & _ & Hs & Hu & Hs' & _).
    exists s, s'. split_and!; try done. by apply update_step in Hu as [? _].
  - intros x Hx. by apply Hout.
Qed.

Lemma throwing_call_counters_witness :
  let w := mkWorld {[0 := param1; 1 := param_shape_2_3]} optimizer_after_throw in
  ∃ l1 r l2, params (this w) = l1 ++ r :: l2 ∧
    (∀ x, x ∈ l1 → ∃ s s', states (this w) !! x = Some s ∧
                            states (this (step w).1) !! x = Some s' ∧
                            State.step s' = State.step s + 1) ∧
    (∀ x, x ∉ l1 → states (this (step w).1) !! x = states (this w) !! x).
Proof.
  cbn zeta.
  set (w := mkWorld {[0 := param1; 1 := param_shape_2_3]} optimizer_after_throw).
  apply (throwing_call_counters w TfjsError).
  - reflexivity.
  - apply NoDup_cons. split; [|apply NoDup_singleton].
    intros H. apply list_elem_of_singleton in H. discriminate H.
  - unfold step, init_pass.
    change (momentumInitialized (this w)) with true. cbv iota.
    unfold update_pass. change (params (this w)) with [0; 1].
    cbn [forEach].
    destruct (update_param_eq 0 w param1
                (State.mk 1 (tf_scalar (Fin 1)) (NaN_tensor [3]) (Some (tf_scalar (Fin 1))))
                (vector [0.1; 0.2; 0.3]%R))
      as (ge & v' & _ & _ & ->); [reflexivity | reflexivity | reflexivity | done | |].
    + simpl. intros x [= <-]. by split.
    + bshape (Some [3]). bshape (Some [3]).
      match goal with |- context [update_param 1 ?w2] => set (w2' := w2) end.
      destruct (update_param_eq 1 w2' param_shape_2_3
                  (State.mk 0 (tf_scalar (Fin 1)) (NaN_tensor [3]) None)
                  (vector [0.4; 0.5; 0.6]%R))
        as (ge2 & v2' & _ & _ & ->); try reflexivity; try done.
Defined.

(** ** [eps = 0] and a zero gradient *)

Lemma sum_squares_replicate_NaN n : n ≠ 0 → sum_squares (replicate n NaN) = NaN.
Proof. destruct n; [done|]. reflexivity. Qed.

Lemma Rsum_squares_replicate_0 n : Rsum_squares (replicate n 0%R) = 0%R.
Proof. induction n as [|n IH]; simpl; [done|]. rewrite IH. lra. Qed.

Lemma zero_tensor_square_norm g : zero_tensor g → square (tf_norm g) = tf_scalar (Fin 0).
Proof.
  intros [_ Hv]. rewrite (square_norm_Fin g (replicate (size_of (shape g)) 0%R)).
  - by rewrite Rsum_squares_replicate_0.
  - by rewrite map_replicate.
Qed.

(** The normalized gradient of a zero gradient with [eps = 0]: every entry
    is [0 / 0]. *)
Lemma normalized_grad_zero o g ng :
  eps o = Fin 0 → zero_tensor g →
  normalized_grad o g (tf_scalar (Fin 0)) = Normal ng →
  square (tf_norm ng) = tf_scalar NaN.
Proof.
  intros He [Hn Hv]. unfold normalized_grad, div. rewrite He.
  rewrite broadcast_op_scalar_values; [| |done].
  2: { unfold well_formed. by rewrite Hv, length_replicate. }
  unfold mbind, Completion_bind; cbn [cbind]. intros [= <-].
  assert (jdiv (Fin 0) (scalar_val (add_n (tf_sqrt (tf_scalar (Fin 0))) (Fin 0))) = NaN)
    as Hdiv.
  { unfold scalar_val. simpl. destruct (Rlt_dec 0 0) as [?|_]; [lra|].
    simpl. destruct (Req_dec_T (sqrt 0 + 0) 0) as [_|Hne].
    - unfold signed_inf, Rsign. destruct (Rlt_dec 0 0); [lra | done].
    - rewrite sqrt_0 in Hne. lra. }
  assert (∀ c, values (if gradAveraging o
                       then mul_n (tensor_map (fun x => jdiv x
                              (scalar_val (add_n (tf_sqrt (tf_scalar (Fin 0))) (Fin 0)))) g) c
                       else tensor_map (fun x => jdiv x
                              (scalar_val (add_n (tf_sqrt (tf_scalar (Fin 0))) (Fin 0)))) g)
               = replicate (size_of (shape g)) NaN) as Hval.
  { intros c. destruct (gradAveraging o); simpl; rewrite Hv, !map_replicate, Hdiv; done. }
  unfold square, tf_norm, tensor_map. simpl.
  rewrite Hval, sum_squares_replicate_NaN by done. reflexivity.
Qed.

Lemma next_v_NaN_r v c1 c2 :
  is_scalar v →
  add (mul_n v c1) (mul_n (tf_scalar NaN) c2) = Normal (tf_scalar NaN).
Proof.
  intros [Hs Hl]. unfold add. rewrite broadcast_op_scalar_values; [| |done].
  2: { unfold well_formed. simpl. by rewrite length_map, Hs, Hl. }
  destruct v as [sh vs]. simpl in *. subst sh.
  destruct vs as [|x [|? ?]]; try done.
  unfold tensor_map, tf_scalar, scalar_val. simpl. by rewrite jadd_NaN_r.
Qed.

Lemma next_v_NaN_l t c1 c2 :
  add (mul_n (tf_scalar NaN) c1) (mul_n (square (tf_norm t)) c2) = Normal (tf_scalar NaN).
Proof. unfold add. by rewrite broadcast_op_scalar_values. Qed.

(** The first update of a record, with [eps = 0] and a zero gradient. *)
Lemma update_zero_eps o p g s d s' :
  eps o = Fin 0 → grad p = Some g → zero_tensor g →
  State.gradEMA s = None → is_scalar (State.v s) →
  update o p s = Normal (d, s') → State.v s' = tf_scalar NaN.
Proof.
  intros He Hg Hz Hema Hv. unfold update. rewrite Hg, Hema.
  rewrite (zero_tensor_square_norm g Hz). unfold next_gradEMA.
  unfold mbind at 1, Completion_bind at 1; cbn [cbind].
  intros H. inv_bind H. injection H as <- <-. simpl.
  rewrite (normalized_grad_zero _ _ _ He Hz E) in E0.
  rewrite next_v_NaN_r in E0 by done. by injection E0 as <-.
Qed.

(** A [NaN] second moment stays [NaN]. *)
Lemma update_v_NaN o p s d s' :
  State.v s = tf_scalar NaN → update o p s = Normal (d, s') →
  State.v s' = tf_scalar NaN.
Proof.
  intros Hv. unfold update. destruct (grad p) as [g|]; [|done].
  intros H. inv_bind H. injection H as <- <-. simpl.
  rewrite Hv, next_v_NaN_l in E1. by injection E1 as <-.
Qed.

Lemma update_param_v_NaN r r' w : v_NaN w r → v_NaN (update_param r' w).1 r.
Proof.
  intros (s & Hs & Hv). unfold v_NaN.
  destruct (update_param_states r' w) as [->|(p & s0 & d & s' & Hs0 & _ & Hu & ->)];
    [by exists s|].
  rewrite lookup_insert. case_decide as Hr; [subst r'|by exists s].
  exists s'. split; [done|]. rewrite Hs in Hs0. injection Hs0 as <-.
  by eapply update_v_NaN.
Qed.

Lemma step_v_NaN w r :
  momentumInitialized (this w) = true → v_NaN w r →
  momentumInitialized (this (step w).1) = true ∧ v_NaN (step w).1 r.
Proof.
  intros Hb Hv.
  apply (step_inv (fun w' => momentumInitialized (this w') = true ∧ v_NaN w' r)).
  - intros r' w' _ _ Hf [Hb' _]. congruence.
  - intros w' _ [_ H]. done.
  - intros r' w' _ _ _ [Hb' H]. split; [by rewrite update_param_flag|].
    by apply update_param_v_NaN.
  - done.
Qed.

Lemma run_v_NaN acts w r :
  momentumInitialized (this w) = true → v_NaN w r →
  momentumInitialized (this (run acts w)) = true ∧ v_NaN (run acts w) r.
Proof.
  revert w. induction acts as [|a acts IH]; intros w Hb Hv; [done|].
  change (run (a :: acts) w) with (run acts (perform a w)).
  destruct a as [h|]; simpl.
  - by apply IH.
  - destruct (step_v_NaN w r Hb Hv). by apply IH.
Qed.

(** X12.  With [eps = 0], which the constructor accepts, a zero gradient
    divides zero by zero.  If a parameter's gradient is a non-empty tensor of
    zeros at the first call on a fresh optimizer and that call returns, the
    parameter's record has [v = NaN] afterwards.  And a record whose [v] is
    [NaN] keeps it: over every later sequence of [step] calls and caller
    writes, whatever the gradients become, [v] is [NaN]. *)
Theorem zero_eps_zero_gradient :
  (∀ w r p g,
     momentumInitialized (this w) = false → eps (this w) = Fin 0 →
     r ∈ params (this w) → heap w !! r = Some p → grad p = Some g → zero_tensor g →
     (step w).2 = Normal tt → v_NaN (step w).1 r) ∧
  (∀ acts w r,
     momentumInitialized (this w) = true → v_NaN w r → v_NaN (run acts w) r).
Proof.
  split; [|intros acts w r Hb Hv; by apply run_v_NaN].
  intros w r p g Hb He Hr Hp Hg Hz. unfold step.
  destruct (init_pass w) as [w1 [[]|e]] eqn:H1; [|done].
  apply init_pass_Normal_char in H1 as (Hh & Hc & Hb1 & Hin & _).
  destruct (Hin r Hr) as [?|(p' & g' & Hp' & Hg' & Hst)]; [congruence|].
  rewrite Hp in Hp'. injection Hp' as <-. rewrite Hg in Hg'. injection Hg' as <-.
  unfold update_pass. assert (params (this w1) = params (this w)) as -> by apply Hc.
  apply list_elem_of_split_l in Hr as (l1 & l2 & -> & Hr1).
  rewrite forEach_app.
  destruct (forEach_update_frame l1 w1 r Hr1) as [Hfh Hfs].
  assert (same_config (this w) (this (forEach update_param l1 w1).1)) as Hc2.
  { apply (forEach_inv (fun w' => same_config (this w) (this w'))); [|done].
    intros r' w' _ H. eapply same_config_trans; [done | apply update_param_config]. }
  destruct (forEach update_param l1 w1) as [w2 [[]|e]]; [|done].
  simpl in Hfh, Hfs, Hc2. cbn [forEach].
  destruct (update_param r w2) as [w3 [[]|e]] eqn:H3; [|done].
  intros HN.
  assert (v_NaN w3 r) as Hv3.
  { apply update_param_Normal in H3 as (p3 & s3 & d & s' & Hs3 & Hp3 & Hu & ->).
    exists s'. split; [simpl; by rewrite lookup_insert_eq|].
    rewrite Hfs, Hst in Hs3. injection Hs3 as <-.
    rewrite Hfh, Hh, Hp in Hp3. injection Hp3 as <-.
    destruct Hc2 as (_ & _ & _ & He2 & _). rewrite He in He2.
    apply (update_zero_eps (this w2) p g (initial_record g) d s'); try done. }
  apply (forEach_inv (fun w' => v_NaN w' r)); [|done].
  intros r' w' _ H. by apply update_param_v_NaN.
Qed.

Lemma zero_eps_zero_gradient_witness :
  v_NaN (step (mkWorld {[0 := param_zero_grad]} (optimizer_zero_eps [0]))).1 0 ∧
  v_NaN (run [Call_step; Caller_writes {[0 := param1]}; Call_step]
           (mkWorld {[0 := param_zero_grad]} optimizer_v_NaN)) 0.
Proof.
  destruct zero_eps_zero_gradient as [H1 H2]. split.
  - apply (H1 _ 0 param_zero_grad (vector [0; 0; 0]%R)); try reflexivity.
    + by left.
    + split; [done | reflexivity].
  - apply H2; [reflexivity|]. eexists. split; reflexivity.
Defined.

(** ** Shapes at the first call *)

Lemma update_initial_record o p g :
  grad p = Some g →
  ∃ ge v', update o p (initial_record g) =
    match broadcast_shape (shape (data p)) (shape g) with
    | None => Throw TfjsError
    | Some sd => Normal (NaN_tensor sd, State.mk 1 v' (NaN_tensor (shape g)) (Some ge))
    end.
Proof.
  intros Hg.
  destruct (update_eq o p (initial_record g) g Hg) as (ge & ng & v' & _ & _ & _ & _ & _ & _ & ->).
  - apply is_scalar_square_norm.
  - by intros x.
  - exists ge, v'. simpl. by rewrite broadcast_shape_same.
Qed.

(** X13.  Shapes are never compared, only broadcast.  On a fresh optimizer
    whose list has no repetition and whose parameters all have a gradient,
    the first call returns exactly when, for every managed parameter, the
    shapes of its data and of its gradient broadcast; and then the new data
    has the broadcast shape, which is not the shape of the old data when the
    gradient's is larger. *)
Theorem first_call_shapes w :
  momentumInitialized (this w) = false → NoDup (params (this w)) →
  (∀ r, r ∈ params (this w) → ∃ p g, heap w !! r = Some p ∧ grad p = Some g) →
  ((step w).2 = Normal tt ↔
   ∀ r p g, r ∈ params (this w) → heap w !! r = Some p → grad p = Some g →
     is_Some (broadcast_shape (shape (data p)) (shape g))) ∧
  ((step w).2 = Normal tt →
   ∀ r p g, r ∈ params (this w) → heap w !! r = Some p → grad p = Some g →
     ∃ p', heap (step w).1 !! r = Some p' ∧
           broadcast_shape (shape (data p)) (shape g) = Some (shape (data p'))).
Proof.
  intros Hb Hnd Hgr.
  assert ((step w).2 = Normal tt →
    ∀ r p g, r ∈ params (this w) → heap w !! r = Some p → grad p = Some g →
      ∃ p', heap (step w).1 !! r = Some p' ∧
            broadcast_shape (shape (data p)) (shape g) = Some (shape (data p'))) as Hshape.
  { intros HN r p g Hr Hp Hg.
    destruct (step_NoDup_Normal w Hnd HN) as [Hin _].
    destruct (Hin r Hr) as (p' & g' & s & d & s' & Hp' & Hg' & Hpr & Hu & _ & Hd).
    rewrite Hp in Hp'. injection Hp' as <-. rewrite Hg in Hg'. injection Hg' as <-.
    unfold prior_record in Hpr. rewrite Hb in Hpr. injection Hpr as <-.
    destruct (update_initial_record (this w) p g Hg) as (ge & v' & Heq).
    rewrite Heq in Hu.
    destruct (broadcast_shape (shape (data p)) (shape g)) as [sd|]; [|done].
    injection Hu as <- _. by eexists. }
  split; [|done]. split.
  - intros HN r p g Hr Hp Hg.
    destruct (Hshape HN r p g Hr Hp Hg) as (p' & _ & ->). by eexists.
  - intros H. apply step_NoDup_progress; [done|]. intros r Hr.
    destruct (Hgr r Hr) as (p & g & Hp & Hg).
    destruct (H r p g Hr Hp Hg) as [sd Hsd].
    destruct (update_initial_record (this w) p g Hg) as (ge & v' & Heq).
    rewrite Hsd in Heq.
    exists p, g, (initial_record g). do 2 eexists. split_and!; try done.
    unfold prior_record. by rewrite Hb.
Qed.

Lemma first_call_shapes_witness :
  let w := mkWorld {[0 := param_shape_1_3]} (default_optimizer [0]) in
  ((step w).2 = Normal tt ↔
   ∀ r p g, r ∈ params (this w) → heap w !! r = Some p → grad p = Some g →
     is_Some (broadcast_shape (shape (data p)) (shape g))) ∧
  ((step w).2 = Normal tt →
   ∀ r p g, r ∈ params (this w) → heap w !! r = Some p → grad p = Some g →
     ∃ p', heap (step w).1 !! r = Some p' ∧
           broadcast_shape (shape (data p)) (shape g) = Some (shape (data p'))).
Proof.
  cbn zeta. apply first_call_shapes.
  - reflexivity.
  - apply NoDup_singleton.
  - intros r Hr. apply list_elem_of_singleton in Hr as ->.
    exists param_shape_1_3, (vector [0.4; 0.5; 0.6]%R). split; reflexivity.
Defined.
